(** * Gaussian-process regression core of sem4-GP/1_GP_basics.ipynb

    The notebook builds GP models with a third-party library; the kernel
    formulas, the posterior and leave-one-out formulas are written in its
    markdown cells, and the engine behind them (kernel composition,
    covariance assembly with jitter, Cholesky solves, prediction,
    hyperparameter optimisation) is described by the specification.  This
    file embeds that engine over the real numbers. *)

From Stdlib Require Import Reals Lra Lia Psatz List Bool Arith Classical.
Import ListNotations.
Open Scope R_scope.

(** ** Points and distances *)

(** An input point: a real vector of dimension [d]. *)
Definition point := list R.

(** Squared Euclidean distance, [sum_i (x_i - x'_i)^2]. *)
Fixpoint sqdist (x x' : point) : R :=
  match x, x' with
  | a :: xs, b :: ys => (a - b) * (a - b) + sqdist xs ys
  | _, _ => 0
  end.

(** Distance [r = ||x - x'||] used by the stationary kernels. *)
Definition dist (x x' : point) : R := sqrt (sqdist x x').

(** Inner product [x^T x']. *)
Fixpoint inner (x x' : point) : R :=
  match x, x' with
  | a :: xs, b :: ys => a * b + inner xs ys
  | _, _ => 0
  end.

(** [sum_i s_i^2 x_i x'_i] of the Linear kernel, one variance per dimension. *)
Fixpoint lin_sum (vs x x' : list R) : R :=
  match vs, x, x' with
  | v :: vs', a :: xs, b :: ys => v * a * b + lin_sum vs' xs ys
  | _, _, _ => 0
  end.

(** Equality of points, for the Kronecker delta of the White kernel. *)
Definition point_eq_dec (x x' : point) : {x = x'} + {x <> x'} :=
  list_eq_dec Req_EM_T x x'.

(** Selection of the active dimensions of a point (Masked kernel). *)
Definition select (dims : list nat) (x : point) : point :=
  map (fun i => nth i x 0) dims.

(** ** Kernels

    The covariance functions of the notebook ("Covariance functions in
    GPy") and their combinations [k1 + k2], [k1 * k2] and [active_dims]. *)
Inductive kernel : Type :=
| RBF (variance lengthscale : R)
| Exponential (variance lengthscale : R)
| Matern32 (variance lengthscale : R)
| Matern52 (variance lengthscale : R)
| RatQuad (alpha lengthscale : R)
| Linear (variances : list R)
| Poly (variance offset : R) (order : nat)
| StdPeriodic (variance lengthscale : R)
| White (variance : R)
| Sum (k1 k2 : kernel)
| Prod (k1 k2 : kernel)
| Masked (active_dims : list nat) (k : kernel).

(** [k(x, x')] as written in the notebook's formulas, stationary kernels
    as functions of [r = ||x - x'||]. *)
Fixpoint K (k : kernel) (x x' : point) : R :=
  match k with
  | RBF s l => s * exp (- (dist x x' ^ 2) / (2 * l ^ 2))
  | Exponential s l => s * exp (- (dist x x' / l))
  | Matern32 s l =>
      let u := sqrt 3 * dist x x' / l in s * (1 + u) * exp (- u)
  | Matern52 s l =>
      let r := dist x x' in
      let u := sqrt 5 * r / l in
      s * (1 + u + 5 / 3 * (r ^ 2 / l ^ 2)) * exp (- u)
  | RatQuad a l => Rpower (1 + dist x x' ^ 2 / (2 * a * l ^ 2)) (- a)
  | Linear vs => lin_sum vs x x'
  | Poly s c d => s * (inner x x' + c) ^ d
  | StdPeriodic s l =>
      s * exp (-2 * (sin (PI * dist x x') ^ 2 / l ^ 2))
  | White s => if point_eq_dec x x' then s else 0
  | Sum k1 k2 => K k1 x x' + K k2 x x'
  | Prod k1 k2 => K k1 x x' * K k2 x x'
  | Masked dims k1 => K k1 (select dims x) (select dims x')
  end.

(** A matrix as the rows the library returns. *)
Definition matrix := list (list R).

Definition mat_add (A B : matrix) : matrix :=
  map (fun rows => map (fun p => fst p + snd p) (combine (fst rows) (snd rows)))
      (combine A B).

Definition mat_mul_elem (A B : matrix) : matrix :=
  map (fun rows => map (fun p => fst p * snd p) (combine (fst rows) (snd rows)))
      (combine A B).

(** [kernel.K(A, B)]: the |A| x |B| matrix of kernel values.  Sum and
    Product delegate to their parts and combine elementwise; Masked selects
    the active dimensions of every row first. *)
Fixpoint Kmat (k : kernel) (A B : list point) : matrix :=
  match k with
  | Sum k1 k2 => mat_add (Kmat k1 A B) (Kmat k2 A B)
  | Prod k1 k2 => mat_mul_elem (Kmat k1 A B) (Kmat k2 A B)
  | Masked dims k1 => Kmat k1 (map (select dims) A) (map (select dims) B)
  | _ => map (fun a => map (fun b => K k a b) B) A
  end.

(** Entry [(i, j)] of a matrix. *)
Definition entry (M : matrix) (i j : nat) : R := nth j (nth i M []) 0.

(** ** Linear algebra core

    Vectors and square matrices as functions on indices; only the first
    [n] indices are meaningful. *)
Definition vec := nat -> R.
Definition mat := nat -> nat -> R.

(** [sum_{j < n} f j]. *)
Fixpoint sumn (n : nat) (f : nat -> R) : R :=
  match n with
  | O => 0
  | S m => f O + sumn m (fun j => f (S j))
  end.

(** Matrix-vector product [(A x)_i]. *)
Definition mv (n : nat) (A : mat) (x : vec) (i : nat) : R :=
  sumn n (fun j => A i j * x j).

(** Dot product [u^T v]. *)
Definition dot (n : nat) (u v : vec) : R := sumn n (fun i => u i * v i).

(** Quadratic form [z^T A z]. *)
Definition quad (n : nat) (A : mat) (z : vec) : R := dot n z (mv n A z).

Definition symmetric (n : nat) (A : mat) : Prop :=
  forall i j, (i < n)%nat -> (j < n)%nat -> A i j = A j i.

Definition posdef (n : nat) (A : mat) : Prop :=
  forall z, (exists i, (i < n)%nat /\ z i <> 0) -> 0 < quad n A z.

(** [z_0 :: z'] and the trailing block of a matrix. *)
Definition vcons (a : R) (v : vec) : vec :=
  fun i => match i with O => a | S i' => v i' end.
Definition vtail (v : vec) : vec := fun i => v (S i).
Definition shift (A : mat) : mat := fun i j => A (S i) (S j).

(** Schur complement of the leading pivot:
    [A' - b b^T / a] for [A = [[a, b^T], [b, A']]]. *)
Definition schur (A : mat) : mat :=
  fun i j => A (S i) (S j) - A (S i) O * A (S j) O / A O O.

(** Cholesky factorisation [A = L L^T] (outer-product form): the leading
    pivot must be positive, the first column of [L] is [b / sqrt a] and the
    rest is the factor of the Schur complement.  [None] when a pivot is not
    positive, i.e. the matrix is not positive definite. *)
Fixpoint cholesky (n : nat) (A : mat) : option mat :=
  match n with
  | O => Some (fun _ _ => 0)
  | S m =>
      if Rle_dec (A O O) 0 then None
      else
        let l := sqrt (A O O) in
        match cholesky m (schur A) with
        | None => None
        | Some L' =>
            Some (fun i j =>
                    match i, j with
                    | O, O => l
                    | S i', O => A (S i') O / l
                    | O, S _ => 0
                    | S i', S j' => L' i' j'
                    end)
        end
  end.

(** Forward substitution, [L z = b] for lower-triangular [L]. *)
Fixpoint forward_subst (n : nat) (L : mat) (b : vec) : vec :=
  match n with
  | O => fun _ => 0
  | S m =>
      let z0 := b O / L O O in
      vcons z0 (forward_subst m (shift L) (fun i => b (S i) - L (S i) O * z0))
  end.

(** Back substitution, [L^T x = z] for lower-triangular [L]. *)
Fixpoint back_subst (n : nat) (L : mat) (z : vec) : vec :=
  match n with
  | O => fun _ => 0
  | S m =>
      let x' := back_subst m (shift L) (vtail z) in
      vcons ((z O - sumn m (fun j => L (S j) O * x' j)) / L O O) x'
  end.

(** [K^{-1} b] through the Cholesky factor [L] of [K]. *)
Definition chol_solve (n : nat) (L : mat) (b : vec) : vec :=
  back_subst n L (forward_subst n L b).

(** [A + j I]. *)
Definition add_diag (A : mat) (j : R) : mat :=
  fun r c => if Nat.eqb r c then A r c + j else A r c.

(** ** Errors of the core *)
Inductive gp_error : Type :=
| DimensionMismatch
| InvalidParameter
| NumericalInstability.

Inductive result (A : Type) : Type :=
| Ok (a : A)
| Err (e : gp_error).
Arguments Ok {A} a.
Arguments Err {A} e.

(** ** Covariance matrix builder

    The jitter-escalation knobs, left open by the design. *)
Record config : Type := {
  jitter_init : R;     (** first extra jitter after a failed factorisation *)
  jitter_tries : nat   (** bound on the number of retries *)
}.

(** Retries with jitter [jit], [2 jit], [4 jit], ...: [mk j] is the
    covariance matrix with extra jitter [j] on its diagonal. *)
Fixpoint jitter_loop (tries n : nat) (mk : R -> mat) (jit : R) : result (mat * R) :=
  match tries with
  | O => Err NumericalInstability
  | S t =>
      match cholesky n (mk jit) with
      | Some L => Ok (L, jit)
      | None => jitter_loop t n mk (2 * jit)
      end
  end.

(** Factor the assembled matrix; escalate the jitter only if that fails. *)
Definition factor (cfg : config) (n : nat) (mk : R -> mat) : result (mat * R) :=
  match cholesky n (mk 0) with
  | Some L => Ok (L, 0)
  | None => jitter_loop (jitter_tries cfg) n mk (jitter_init cfg)
  end.

(** ** GP regression engine *)

Record gp_regression : Type := {
  X : list point;
  Y : list R;
  kern : kernel;
  noise_variance : R
}.

Definition n_train (m : gp_regression) : nat := length (X m).

(** The Gram matrix [||k(x_i, x_j)||], read from [kernel.K(X, X)]. *)
Definition gram (k : kernel) (Xs : list point) : mat :=
  fun i j => entry (Kmat k Xs Xs) i j.

(** [K_y = ||k(x_i, x_j)|| + (sigma_n^2 + jit) I]. *)
Definition cov (m : gp_regression) (jit : R) : mat :=
  add_diag (gram (kern m) (X m)) (noise_variance m + jit).

Definition yvec (m : gp_regression) : vec := fun i => nth i (Y m) 0.

(** Cached posterior state: the Cholesky factor, the jitter it needed and
    [alpha = K_y^{-1} y]. *)
Record posterior : Type := {
  post_L : mat;
  post_jitter : R;
  post_alpha : vec
}.

Definition fit (cfg : config) (m : gp_regression) : result posterior :=
  let n := n_train m in
  match factor cfg n (cov m) with
  | Ok (L, j) => Ok {| post_L := L; post_jitter := j;
                       post_alpha := chol_solve n L (yvec m) |}
  | Err e => Err e
  end.

(** [k = (k(x_s, x_1), ..., k(x_s, x_N))]. *)
Definition kstar (m : gp_regression) (xs : point) : vec :=
  fun i => K (kern m) xs (nth i (X m) []).

(** Posterior mean [k^T alpha] and variance [k(x_s, x_s) - k^T K_y^{-1} k],
    the latter clamped at zero. *)
Definition predict (m : gp_regression) (p : posterior) (xs : point) : R * R :=
  let n := n_train m in
  let k := kstar m xs in
  (dot n k (post_alpha p),
   Rmax 0 (K (kern m) xs xs - dot n k (chol_solve n (post_L p) k))).

(** Unit basis vector [e_i]. *)
Definition unit_vec (i : nat) : vec := fun t => if Nat.eqb t i then 1 else 0.

(** Leave-one-out mean and variance from [K^{-1} y] and the diagonal of
    [K^{-1}] (one solve per unit basis vector):
    [mu_i = y_i - [K^{-1} y]_i / [K^{-1}]_ii], [sigma_i = 1 / [K^{-1}]_ii]. *)
Definition loo (m : gp_regression) (p : posterior) (i : nat) : R * R :=
  let kinv_ii := chol_solve (n_train m) (post_L p) (unit_vec i) i in
  (yvec m i - post_alpha p i / kinv_ii, 1 / kinv_ii).

Fixpoint remove_at {A} (i : nat) (l : list A) : list A :=
  match l, i with
  | [], _ => []
  | _ :: t, O => t
  | h :: t, S i' => h :: remove_at i' t
  end.

(** The model refitted without training point [i]. *)
Definition drop_point (m : gp_regression) (i : nat) : gp_regression :=
  {| X := remove_at i (X m); Y := remove_at i (Y m);
     kern := kern m; noise_variance := noise_variance m |}.

(** Brute-force leave-one-out: refit without point [i], predict at [x_i]. *)
Definition loo_refit (cfg : config) (m : gp_regression) (i : nat) : option (R * R) :=
  let m' := drop_point m i in
  match fit cfg m' with
  | Ok p' => Some (predict m' p' (nth i (X m) []))
  | Err _ => None
  end.

(** Index of the reduced problem in the full one. *)
Definition skip (i r : nat) : nat := if Nat.ltb r i then r else S r.

(** A symmetric positive-definite kernel: positive-definite Gram matrix
    on every list of distinct inputs. *)
Definition spd_kernel (k : kernel) : Prop :=
  forall Xs, NoDup Xs -> posdef (length Xs) (gram k Xs).

(** Positive semi-definite matrix. *)
Definition psd (n : nat) (A : mat) : Prop := forall z, 0 <= quad n A z.


(** Inverse of [skip i] away from [i]. *)
Definition unskip (i t : nat) : nat := if Nat.ltb t i then t else pred t.

(** ** Datasets

    Modelled from the spec: the dataset of spec section 3 ([N] inputs of one
    dimension [d], [N] targets), checked on construction.  The error
    taxonomy has no error for target values, so targets are not checked. *)
Record dataset := { inputs : list point; targets : list R }.

Definition dim_ok (d : nat) (Xs : list point) : bool :=
  forallb (fun x => Nat.eqb (length x) d) Xs.

Definition make_dataset (Xs : list point) (ys : list R) : result dataset :=
  let d := length (nth 0 Xs []) in
  if Nat.eqb (length Xs) (length ys) && dim_ok d Xs
  then Ok {| inputs := Xs; targets := ys |}
  else Err DimensionMismatch.

(** The notebook's [cylinder]: [1/7 - (x0 - 1/2)^2 - (x1 - 1/2)^2 > 0],
    a boolean per point. *)
Definition cylinder (x : point) : bool :=
  if Rlt_dec 0 (1 / 7 - (nth 0 x 0 - 1 / 2) ^ 2 - (nth 1 x 0 - 1 / 2) ^ 2)
  then true else false.

(** A boolean label read as a real target, [True -> 1], [False -> 0]. *)
Definition label (b : bool) : R := if b then 1 else 0.

(** [GPClassification(X, y.reshape(-1, 1))] with [y = cylinder(X)]. *)
Definition classification_data (Xs : list point) : result dataset :=
  make_dataset Xs (map (fun x => label (cylinder x)) Xs).

(** ** Hyperparameter optimizer

    Modelled from the spec (sections 4.1, 4.5, 7 and 9): every
    hyperparameter is a record [{value; is_fixed; constraint}]; a
    positivity-constrained parameter enters the optimisation vector as
    [log(value)] and is mapped back with [exp], a raw offset (no
    constraint) enters as it is; fixed parameters are left out.  The
    optimizer stops on the tolerance test, reporting the final iterate and
    its objective, or after [max_iter] steps, reporting non-convergence
    with the best iterate found; it commits the new free values only when
    no evaluation failed. *)
Inductive param_constraint : Type := Positive | Unconstrained.

Record param := { value : R; is_fixed : bool; constraint : param_constraint }.

(** Internal coordinate of a free parameter, and back. *)
Definition to_internal (p : param) : R :=
  match constraint p with Positive => ln (value p) | Unconstrained => value p end.

Definition from_internal (c : param_constraint) (t : R) : R :=
  match c with Positive => exp t | Unconstrained => t end.

Fixpoint free_vec (ps : list param) : list R :=
  match ps with
  | [] => []
  | p :: ps' => if is_fixed p then free_vec ps' else to_internal p :: free_vec ps'
  end.

Fixpoint set_free (ps : list param) (u : list R) : list param :=
  match ps with
  | [] => []
  | p :: ps' =>
      if is_fixed p then p :: set_free ps' u
      else match u with
           | [] => p :: set_free ps' []
           | t :: u' =>
               {| value := from_internal (constraint p) t; is_fixed := is_fixed p;
                  constraint := constraint p |} :: set_free ps' u'
           end
  end.

(** Status of a finished run: achieved objective and whether the
    tolerance was met ([false]: OptimizationNonConvergence). *)
Record opt_status := { achieved : R; converged : bool }.

Section Optimizer.

(** The log marginal likelihood of a parameter vector (it fails, for
    instance, with NumericalInstability), the quasi-Newton proposal on the
    free log-parameters, and the tolerance test between two iterates. *)
Variable objective : list R -> result R.
Variable step : list R -> list R.
Variable tolerance_met : list R -> list R -> bool.

Definition obj (ps : list param) (u : list R) : result R :=
  objective (map value (set_free ps u)).

Fixpoint opt_loop (ps : list param) (iters : nat) (u : list R)
    (best : list R) (fbest : R) : result (list R * R * bool) :=
  match iters with
  | O => Ok (best, fbest, false)
  | S it =>
      let u' := step u in
      match obj ps u' with
      | Err e => Err e
      | Ok f' =>
          if tolerance_met u u' then Ok (u', f', true)
          else
            let '(b, fb) := if Rlt_dec fbest f' then (u', f') else (best, fbest) in
            opt_loop ps it u' b fb
      end
  end.

Definition optimize (max_iter : nat) (ps : list param)
    : list param * result opt_status :=
  let u0 := free_vec ps in
  match obj ps u0 with
  | Err e => (ps, Err e)
  | Ok f0 =>
      match opt_loop ps max_iter u0 u0 f0 with
      | Err e => (ps, Err e)
      | Ok (b, fb, c) => (set_free ps b, Ok {| achieved := fb; converged := c |})
      end
  end.

End Optimizer.

(** ** Other code of the notebook *)

(** [k1 + k2] with [k1 = RBF(1, active_dims=[0])] and
    [k2 = RBF(1, active_dims=[1])] (default variance and lengthscale 1). *)
Definition additive_kernel : kernel :=
  Sum (Masked [0%nat] (RBF 1 1)) (Masked [1%nat] (RBF 1 1)).

(** First coordinate of a point, 0 for the empty point. *)
Definition head_or_0 (x : point) : R := match x with a :: _ => a | [] => 0 end.

(** ** Example inputs *)

(** Jitter knobs and a one-point regression model. *)
Definition cfg_example : config := {| jitter_init := 1 / 1000000; jitter_tries := 5 |}.

Definition model_1pt : gp_regression :=
  {| X := [[0]]; Y := [1]; kern := RBF 1 1; noise_variance := 1 |}.

(** Hyperparameters as in the notebook's
    [model.Gaussian_noise.variance.fix(0.01)]: a fixed noise variance and a
    free kernel variance. *)
Definition params_example : list param :=
  [{| value := 1 / 100; is_fixed := true; constraint := Positive |};
   {| value := 1; is_fixed := false; constraint := Positive |}].

(** Two inputs of the unit square, one inside the notebook's cylinder. *)
Definition Xs_example : list point := [[1 / 2; 1 / 2]; [0; 0]].

(** [model_1pt] with the targets [2] and [3]. *)
Definition model_1pt_y2 : gp_regression :=
  {| X := [[0]]; Y := [2]; kern := RBF 1 1; noise_variance := 1 |}.

Definition model_1pt_y3 : gp_regression :=
  {| X := [[0]]; Y := [3]; kern := RBF 1 1; noise_variance := 1 |}.

(** A noise-free two-point model with a white-noise kernel. *)
Definition model_white_exact : gp_regression :=
  {| X := [[0]; [1]]; Y := [0; 1]; kern := White 1; noise_variance := 0 |}.

(** A two-point model with a white-noise kernel. *)
Definition model_white : gp_regression :=
  {| X := [[0]; [1]]; Y := [0; 1]; kern := White 1; noise_variance := 1 / 10 |}.

(** ** Lemmas on the kernel matrices *)

Lemma nth_map_lt {A B} (f : A -> B) (l : list A) i d d' :
  (i < length l)%nat -> nth i (map f l) d = f (nth i l d').
Proof.
  revert i; induction l as [|a l IH]; intros [|i] Hi; simpl in *; try lia;
    [reflexivity | apply IH; lia].
Qed.

Lemma nth_combine_lt {A B} (l : list A) (l' : list B) i d :
  (i < length l)%nat -> (i < length l')%nat ->
  nth i (combine l l') d = (nth i l (fst d), nth i l' (snd d)).
Proof.
  revert l' i; induction l as [|a l IH]; intros [|b l'] [|i] H1 H2;
    simpl in *; try lia; auto.
  apply IH; lia.
Qed.

Lemma combine_rows_shape (op : R -> R -> R) (A B : matrix) n :
  length A = length B ->
  (forall i, (i < length A)%nat -> length (nth i A []) = n) ->
  (forall i, (i < length B)%nat -> length (nth i B []) = n) ->
  let M := map (fun rows => map (fun p => op (fst p) (snd p))
                               (combine (fst rows) (snd rows))) (combine A B) in
  length M = length A /\
  forall i, (i < length A)%nat -> length (nth i M []) = n.
Proof.
  intros HAB HA HB M; subst M; split.
  - rewrite length_map, length_combine; lia.
  - intros i Hi.
    rewrite (nth_map_lt _ _ _ _ ([], [])) by (rewrite length_combine; lia).
    rewrite nth_combine_lt by lia; simpl.
    rewrite length_map, length_combine, HA, HB by lia; lia.
Qed.

Lemma Kmat_shape k : forall A B,
  length (Kmat k A B) = length A /\
  forall i, (i < length A)%nat -> length (nth i (Kmat k A B) []) = length B.
Proof.
  induction k; intros A B;
    try (simpl; split;
         [ rewrite length_map; reflexivity
         | intros i Hi; rewrite (nth_map_lt _ _ _ _ (@nil R)) by exact Hi;
           rewrite length_map; reflexivity ]).
  - destruct (IHk1 A B) as [L1 R1]; destruct (IHk2 A B) as [L2 R2].
    simpl; unfold mat_add.
    destruct (combine_rows_shape Rplus (Kmat k1 A B) (Kmat k2 A B) (length B))
      as [E F]; try congruence.
    + intros i Hi; apply R1; lia.
    + intros i Hi; apply R2; lia.
    + rewrite E, L1; split; [reflexivity|]; intros i Hi; apply F; lia.
  - destruct (IHk1 A B) as [L1 R1]; destruct (IHk2 A B) as [L2 R2].
    simpl; unfold mat_mul_elem.
    destruct (combine_rows_shape Rmult (Kmat k1 A B) (Kmat k2 A B) (length B))
      as [E F]; try congruence.
    + intros i Hi; apply R1; lia.
    + intros i Hi; apply R2; lia.
    + rewrite E, L1; split; [reflexivity|]; intros i Hi; apply F; lia.
  - simpl; destruct (IHk (map (select active_dims) A) (map (select active_dims) B))
      as [L1 R1].
    rewrite !length_map in *; split; [exact L1|].
    intros i Hi; rewrite R1 by lia; reflexivity.
Qed.

Lemma combine_rows_entry (op : R -> R -> R) (A B : matrix) i j :
  (i < length A)%nat -> (i < length B)%nat ->
  (j < length (nth i A []))%nat -> (j < length (nth i B []))%nat ->
  entry (map (fun rows => map (fun p => op (fst p) (snd p))
                               (combine (fst rows) (snd rows))) (combine A B)) i j
  = op (entry A i j) (entry B i j).
Proof.
  intros HA HB HjA HjB; unfold entry.
  rewrite (nth_map_lt _ _ _ _ ([], [])) by (rewrite length_combine; lia).
  rewrite nth_combine_lt by lia; simpl.
  rewrite (nth_map_lt _ _ _ _ (0, 0)) by (rewrite length_combine; lia).
  rewrite nth_combine_lt by lia; reflexivity.
Qed.

(** Every entry of [kernel.K(A, B)] is the kernel evaluated at the
    corresponding pair of points. *)
Lemma Kmat_entry k : forall A B i j,
  (i < length A)%nat -> (j < length B)%nat ->
  entry (Kmat k A B) i j = K k (nth i A []) (nth j B []).
Proof.
  induction k; intros A B i j Hi Hj;
    try (unfold entry; simpl;
         rewrite (nth_map_lt _ _ _ _ (@nil R)) by exact Hi;
         rewrite (nth_map_lt _ _ _ _ (@nil R)) by exact Hj; reflexivity).
  - destruct (Kmat_shape k1 A B) as [L1 R1]; destruct (Kmat_shape k2 A B) as [L2 R2].
    simpl; unfold mat_add; rewrite combine_rows_entry; try lia.
    + rewrite IHk1, IHk2 by lia; reflexivity.
    + rewrite R1; lia.
    + rewrite R2; lia.
  - destruct (Kmat_shape k1 A B) as [L1 R1]; destruct (Kmat_shape k2 A B) as [L2 R2].
    simpl; unfold mat_mul_elem; rewrite combine_rows_entry; try lia.
    + rewrite IHk1, IHk2 by lia; reflexivity.
    + rewrite R1; lia.
    + rewrite R2; lia.
  - simpl; rewrite IHk by (rewrite length_map; lia).
    rewrite !(nth_map_lt (select active_dims) _ _ _ (@nil R)) by lia.
    reflexivity.
Qed.

(** ** Finite sums *)

Lemma sumn_ext n : forall f g,
  (forall j, (j < n)%nat -> f j = g j) -> sumn n f = sumn n g.
Proof.
  induction n as [|n IH]; intros f g H; simpl; [reflexivity|].
  rewrite (H O) by lia; f_equal; apply IH; intros j Hj; apply H; lia.
Qed.

Lemma sumn_plus n : forall f g,
  sumn n (fun j => f j + g j) = sumn n f + sumn n g.
Proof.
  induction n as [|n IH]; intros f g; simpl; [ring|].
  rewrite IH; ring.
Qed.

Lemma sumn_scal n : forall c f,
  sumn n (fun j => c * f j) = c * sumn n f.
Proof.
  induction n as [|n IH]; intros c f; simpl; [ring|].
  rewrite IH; ring.
Qed.

Lemma sumn_zero n : forall f,
  (forall j, (j < n)%nat -> f j = 0) -> sumn n f = 0.
Proof.
  intros f H; rewrite (sumn_ext n f (fun _ => 0)) by exact H.
  clear H; induction n as [|n IH]; simpl; [reflexivity|]; rewrite IH; ring.
Qed.

Lemma sumn_swap n m : forall (f : nat -> nat -> R),
  sumn n (fun i => sumn m (fun j => f i j)) =
  sumn m (fun j => sumn n (fun i => f i j)).
Proof.
  induction n as [|n IH]; intros f; simpl.
  - symmetry; apply sumn_zero; reflexivity.
  - rewrite IH, <- sumn_plus; reflexivity.
Qed.

Ltac sumn_simpl :=
  repeat first [ rewrite sumn_plus | rewrite sumn_scal ].

(** ** Cholesky solve *)

Lemma schur_symmetric n A :
  symmetric (S n) A -> symmetric n (schur A).
Proof.
  intros H i j Hi Hj; unfold schur.
  rewrite (H (S i) (S j)) by lia; unfold Rdiv; ring.
Qed.

Lemma sqrt_pivot a : 0 < a -> sqrt a * sqrt a = a /\ 0 < sqrt a.
Proof.
  intros Ha; split; [apply sqrt_sqrt; lra | apply sqrt_lt_R0; exact Ha].
Qed.

(** Shape of a successful factorisation step. *)
Lemma cholesky_S m A L :
  cholesky (S m) A = Some L ->
  0 < A O O /\
  exists L', cholesky m (schur A) = Some L' /\
    L = (fun i j =>
           match i, j with
           | O, O => sqrt (A O O)
           | S i', O => A (S i') O / sqrt (A O O)
           | O, S _ => 0
           | S i', S j' => L' i' j'
           end).
Proof.
  simpl; destruct (Rle_dec (A O O) 0) as [Hle|Hgt]; [discriminate|].
  destruct (cholesky m (schur A)) as [L'|] eqn:E; [|discriminate].
  intros H; injection H as <-; split; [lra|]; exists L'; auto.
Qed.

Lemma chol_solve_S m L b :
  chol_solve (S m) L b =
  let b' := fun i => b (S i) - L (S i) O * (b O / L O O) in
  let x' := chol_solve m (shift L) b' in
  vcons ((b O / L O O - sumn m (fun j => L (S j) O * x' j)) / L O O) x'.
Proof. reflexivity. Qed.

Lemma mv_S m A v i :
  mv (S m) A v i = A i O * v O + sumn m (fun j => A i (S j) * v (S j)).
Proof. reflexivity. Qed.

(** The Cholesky solve returns [x] with [A x = b]. *)
Lemma chol_solve_correct n : forall A L b,
  symmetric n A -> cholesky n A = Some L ->
  forall i, (i < n)%nat -> mv n A (chol_solve n L b) i = b i.
Proof.
  induction n as [|m IH]; intros A L b Hsym Hch i Hi; [lia|].
  destruct (cholesky_S m A L Hch) as [Ha [L' [HL' EL]]].
  destruct (sqrt_pivot _ Ha) as [Hll Hl].
  set (l := sqrt (A O O)) in *.
  assert (HL0 : L O O = l) by (subst L; reflexivity).
  assert (HLc : forall i, L (S i) O = A (S i) O / l) by (subst L; reflexivity).
  assert (HLs : shift L = L') by (subst L; reflexivity).
  clear EL.
  rewrite chol_solve_S; cbv zeta; rewrite HLs, HL0.
  set (b' := fun i => b (S i) - L (S i) O * (b O / l)).
  assert (Hx' : forall i, (i < m)%nat ->
            mv m (schur A) (chol_solve m L' b') i = b' i)
    by (apply IH; [apply schur_symmetric; exact Hsym | exact HL']).
  set (x' := chol_solve m L' b') in *.
  set (beta := sumn m (fun j => A (S j) O * x' j)).
  assert (Hsum : sumn m (fun j => L (S j) O * x' j) = beta / l).
  { unfold beta, Rdiv; rewrite Rmult_comm, <- sumn_scal.
    apply sumn_ext; intros; rewrite HLc; unfold Rdiv; ring. }
  rewrite Hsum, mv_S; unfold vcons at 1; cbv beta iota.
  rewrite (sumn_ext m (fun j => A i (S j) * vcons _ x' (S j))
                      (fun j => A i (S j) * x' j)) by reflexivity.
  destruct i as [|i'].
  - rewrite (sumn_ext m _ (fun j => A (S j) O * x' j))
      by (intros j Hj; rewrite (Hsym O (S j)) by lia; reflexivity).
    fold beta. rewrite <- Hll. field; lra.
  - specialize (Hx' i' ltac:(lia)); unfold mv, schur, b' in Hx'.
    rewrite (sumn_ext m _ (fun j => A (S i') (S j) * x' j +
                                    (- (A (S i') O / A O O)) * (A (S j) O * x' j)))
      in Hx' by (intros; field; lra).
    rewrite sumn_plus, sumn_scal in Hx'; fold beta in Hx'.
    rewrite HLc in Hx'.
    assert (E : sumn m (fun j => A (S i') (S j) * x' j) =
                b (S i') - A (S i') O / l * (b O / l) + A (S i') O / A O O * beta)
      by lra.
    rewrite E, <- Hll; field; lra.
Qed.

(** ** Positive definiteness and the Cholesky pivots *)

Lemma sumn_S m f : sumn (S m) f = f O + sumn m (fun j => f (S j)).
Proof. reflexivity. Qed.

(** Completing the square on the leading pivot:
    [z^T A z = a (z_0 + beta / a)^2 + z'^T S z'] with [S] the Schur
    complement and [beta = b^T z']. *)
Lemma quad_schur m A z :
  symmetric (S m) A -> A O O <> 0 ->
  let beta := sumn m (fun j => A (S j) O * z (S j)) in
  quad (S m) A z =
  A O O * ((z O + beta / A O O) * (z O + beta / A O O)) +
  quad m (schur A) (vtail z).
Proof.
  intros Hsym Ha beta.
  set (Q := sumn m (fun i => z (S i) * sumn m (fun j => A (S i) (S j) * z (S j)))).
  assert (E1 : quad (S m) A z = z O * (A O O * z O + beta) + (z O * beta + Q)).
  { unfold quad, dot, mv; rewrite !sumn_S.
    rewrite (sumn_ext m (fun j => A O (S j) * z (S j))
                        (fun j => A (S j) O * z (S j)))
      by (intros j Hj; rewrite (Hsym O (S j)) by lia; reflexivity).
    fold beta; f_equal.
    rewrite (sumn_ext m _ (fun i => z O * (A (S i) O * z (S i)) +
                                    z (S i) * sumn m (fun j => A (S i) (S j) * z (S j))))
      by (intros; rewrite sumn_S; ring).
    rewrite sumn_plus, sumn_scal; reflexivity. }
  assert (E2 : quad m (schur A) (vtail z) = Q - beta * beta / A O O).
  { unfold quad, dot, mv, schur, vtail.
    rewrite (sumn_ext m _ (fun i => z (S i) * sumn m (fun j => A (S i) (S j) * z (S j)) +
                                    (- (beta / A O O)) * (A (S i) O * z (S i)))).
    - rewrite sumn_plus, sumn_scal; fold Q; fold beta; field; exact Ha.
    - intros i Hi.
      rewrite (sumn_ext m _ (fun j => A (S i) (S j) * z (S j) +
                                      (- (A (S i) O / A O O)) * (A (S j) O * z (S j))))
        by (intros; field; exact Ha).
      rewrite sumn_plus, sumn_scal; fold beta; field; exact Ha. }
  rewrite E1, E2; field; exact Ha.
Qed.

Lemma quad_first m A :
  quad (S m) A (vcons 1 (fun _ => 0)) = A O O.
Proof.
  unfold quad, dot, mv; rewrite !sumn_S; cbn [vcons].
  rewrite (sumn_zero m (fun j => A O (S j) * 0)) by (intros; ring).
  rewrite (sumn_zero m (fun j => 0 * _)) by (intros; ring).
  ring.
Qed.

Lemma quad_ext n A z z' :
  (forall i, (i < n)%nat -> z i = z' i) -> quad n A z = quad n A z'.
Proof.
  intros H; unfold quad, dot, mv.
  apply sumn_ext; intros i Hi; rewrite H by exact Hi; f_equal.
  apply sumn_ext; intros j Hj; rewrite H by exact Hj; reflexivity.
Qed.

(** Cholesky succeeds on every symmetric positive-definite matrix. *)
Lemma posdef_cholesky n : forall A,
  symmetric n A -> posdef n A -> exists L, cholesky n A = Some L.
Proof.
  induction n as [|m IH]; intros A Hsym Hpd; [eexists; reflexivity|].
  assert (Ha : 0 < A O O).
  { rewrite <- (quad_first m A); apply Hpd; exists O; split; [lia|]; simpl; lra. }
  assert (Hs : posdef m (schur A)).
  { intros z' [i [Hi Hz]].
    set (beta := sumn m (fun j => A (S j) O * z' j)).
    set (z := vcons (- beta / A O O) z').
    assert (Hq := quad_schur m A z Hsym ltac:(lra)); cbv zeta in Hq.
    change (vtail z) with z' in Hq.
    change (sumn m (fun j => A (S j) O * z (S j))) with beta in Hq.
    replace (z O + beta / A O O) with 0 in Hq by (unfold z; simpl; field; lra).
    rewrite Rmult_0_l, Rmult_0_r, Rplus_0_l in Hq; rewrite <- Hq.
    apply Hpd; exists (S i); split; [lia|exact Hz]. }
  destruct (IH (schur A) (schur_symmetric m A Hsym) Hs) as [L' HL'].
  simpl; destruct (Rle_dec (A O O) 0) as [Hle|_]; [lra|].
  rewrite HL'; eexists; reflexivity.
Qed.

(** A successful factorisation certifies positive definiteness. *)
Lemma cholesky_posdef n : forall A L,
  symmetric n A -> cholesky n A = Some L -> posdef n A.
Proof.
  induction n as [|m IH]; intros A L Hsym Hch z [i [Hi Hz]]; [lia|].
  destruct (cholesky_S m A L Hch) as [Ha [L' [HL' _]]].
  assert (Hs := IH _ _ (schur_symmetric m A Hsym) HL').
  rewrite (quad_schur m A z Hsym ltac:(lra)).
  set (beta := sumn m (fun j => A (S j) O * z (S j))).
  destruct (classic (exists j, (j < m)%nat /\ vtail z j <> 0)) as [Hnz|Hz'].
  - assert (0 < quad m (schur A) (vtail z)) by (apply Hs; exact Hnz).
    assert (0 <= A O O * ((z O + beta / A O O) * (z O + beta / A O O))).
    { apply Rmult_le_pos; [lra|]. apply Rle_0_sqr. }
    lra.
  - assert (Hzero : forall j, (j < m)%nat -> z (S j) = 0).
    { intros j Hj; destruct (Req_EM_T (z (S j)) 0) as [E|E]; [exact E|].
      exfalso; apply Hz'; exists j; split; [exact Hj|exact E]. }
    assert (Hb : beta = 0)
      by (apply sumn_zero; intros j Hj; rewrite Hzero by exact Hj; ring).
    assert (Hq : quad m (schur A) (vtail z) = 0).
    { unfold quad, dot; apply sumn_zero; intros j Hj; unfold vtail.
      rewrite Hzero by exact Hj; ring. }
    destruct i as [|i']; [|exfalso; apply Hz; apply Hzero; lia].
    rewrite Hq, Hb; unfold Rdiv; rewrite Rmult_0_l, Rplus_0_r, Rplus_0_r.
    apply Rmult_lt_0_compat; [lra|].
    destruct (Rlt_dec 0 (z O)) as [Hp|Hn].
    + apply Rmult_lt_0_compat; exact Hp.
    + assert (z O < 0) by lra; nra.
Qed.

(** ** Symmetry of kernels and covariance matrices *)

Lemma sqdist_sym x : forall x', sqdist x x' = sqdist x' x.
Proof.
  induction x as [|a x IH]; intros [|b x']; simpl; try reflexivity.
  rewrite IH; ring.
Qed.

Lemma inner_sym x : forall x', inner x x' = inner x' x.
Proof.
  induction x as [|a x IH]; intros [|b x']; simpl; try reflexivity.
  rewrite IH; ring.
Qed.

Lemma lin_sum_sym vs : forall x x', lin_sum vs x x' = lin_sum vs x' x.
Proof.
  induction vs as [|v vs IH]; intros [|a x] [|b x']; simpl; try reflexivity.
  rewrite IH; ring.
Qed.

Lemma dist_sym x x' : dist x x' = dist x' x.
Proof. unfold dist; rewrite sqdist_sym; reflexivity. Qed.

(** Every kernel is symmetric in its two arguments. *)
Lemma K_sym k : forall x x', K k x x' = K k x' x.
Proof.
  induction k; intros x x'; simpl;
    try rewrite dist_sym; try reflexivity.
  - apply lin_sum_sym.
  - rewrite inner_sym; reflexivity.
  - destruct (point_eq_dec x x'), (point_eq_dec x' x); subst; congruence.
  - rewrite IHk1, IHk2; reflexivity.
  - rewrite IHk1, IHk2; reflexivity.
  - apply IHk.
Qed.

Lemma gram_entry k Xs i j :
  (i < length Xs)%nat -> (j < length Xs)%nat ->
  gram k Xs i j = K k (nth i Xs []) (nth j Xs []).
Proof. intros Hi Hj; unfold gram; apply Kmat_entry; assumption. Qed.

Lemma gram_symmetric k Xs : symmetric (length Xs) (gram k Xs).
Proof.
  intros i j Hi Hj; rewrite !gram_entry by assumption; apply K_sym.
Qed.

Lemma add_diag_symmetric n A j :
  symmetric n A -> symmetric n (add_diag A j).
Proof.
  intros H r c Hr Hc; unfold add_diag; rewrite Nat.eqb_sym.
  destruct (Nat.eqb c r) eqn:E.
  - apply Nat.eqb_eq in E; subst; reflexivity.
  - apply H; assumption.
Qed.

Lemma cov_symmetric m j : symmetric (n_train m) (cov m j).
Proof. apply add_diag_symmetric, gram_symmetric. Qed.

(** ** Jitter escalation *)

Lemma jitter_loop_ok tries : forall n mk jit L j,
  jitter_loop tries n mk jit = Ok (L, j) -> cholesky n (mk j) = Some L.
Proof.
  induction tries as [|t IH]; intros n mk jit L j H; simpl in H; [discriminate|].
  destruct (cholesky n (mk jit)) as [L'|] eqn:E.
  - injection H as <- <-; exact E.
  - eapply IH; exact H.
Qed.

Lemma factor_ok cfg n mk L j :
  factor cfg n mk = Ok (L, j) -> cholesky n (mk j) = Some L.
Proof.
  unfold factor; destruct (cholesky n (mk 0)) as [L'|] eqn:E.
  - intros H; injection H as <- <-; exact E.
  - apply jitter_loop_ok.
Qed.

Lemma fit_ok cfg m p :
  fit cfg m = Ok p ->
  cholesky (n_train m) (cov m (post_jitter p)) = Some (post_L p) /\
  post_alpha p = chol_solve (n_train m) (post_L p) (yvec m).
Proof.
  unfold fit; destruct (factor cfg (n_train m) (cov m)) as [[L j]|e] eqn:E;
    intros H; [|discriminate].
  injection H as <-; simpl; split; [|reflexivity].
  apply factor_ok with cfg; exact E.
Qed.

(** ** Adding to the diagonal *)

Lemma sumn_add_diag j n : forall i f z,
  sumn n (fun c => (if Nat.eqb i c then f c + j else f c) * z c) =
  sumn n (fun c => f c * z c) + (if Nat.ltb i n then j * z i else 0).
Proof.
  induction n as [|n IH]; intros i f z; simpl; [ring|].
  destruct i as [|i'].
  - rewrite (sumn_ext n (fun c => (if Nat.eqb O (S c) then _ else _) * _)
                        (fun c => f (S c) * z (S c))) by reflexivity.
    simpl; ring.
  - cbn [Nat.eqb Nat.ltb].
    rewrite (IH i' (fun c => f (S c)) (fun c => z (S c))).
    replace (Nat.ltb (S i') (S n)) with (Nat.ltb i' n) by reflexivity; ring.
Qed.

Lemma mv_add_diag n A j z i :
  (i < n)%nat -> mv n (add_diag A j) z i = mv n A z i + j * z i.
Proof.
  intros Hi; unfold mv, add_diag.
  rewrite (sumn_add_diag j n i (A i) z).
  apply Nat.ltb_lt in Hi; rewrite Hi; reflexivity.
Qed.

Lemma quad_add_diag n A j z :
  quad n (add_diag A j) z = quad n A z + j * dot n z z.
Proof.
  unfold quad, dot at 1 2.
  rewrite (sumn_ext n _ (fun i => z i * mv n A z i + j * (z i * z i)))
    by (intros i Hi; rewrite mv_add_diag by exact Hi; ring).
  rewrite sumn_plus, sumn_scal; reflexivity.
Qed.

Lemma dot_self_nonneg n : forall z, 0 <= dot n z z.
Proof.
  induction n as [|n IH]; intros z; unfold dot; simpl; [lra|].
  assert (0 <= z O * z O) by apply Rle_0_sqr.
  specialize (IH (fun j => z (S j))); unfold dot in IH; lra.
Qed.

Lemma dot_self_pos n : forall z,
  (exists i, (i < n)%nat /\ z i <> 0) -> 0 < dot n z z.
Proof.
  induction n as [|n IH]; intros z [i [Hi Hz]]; [lia|].
  unfold dot; rewrite sumn_S.
  assert (H0 : 0 <= z O * z O) by apply Rle_0_sqr.
  destruct i as [|i'].
  - assert (0 < z O * z O) by (apply Rsqr_pos_lt; exact Hz).
    assert (0 <= dot n (fun j => z (S j)) (fun j => z (S j))) by apply dot_self_nonneg.
    unfold dot in *; lra.
  - assert (0 < dot n (fun j => z (S j)) (fun j => z (S j)))
      by (apply IH; exists i'; split; [lia|exact Hz]).
    unfold dot in *; lra.
Qed.

Lemma posdef_add_diag n A j :
  posdef n A -> 0 <= j -> posdef n (add_diag A j).
Proof.
  intros H Hj z Hz; rewrite quad_add_diag.
  assert (0 < quad n A z) by (apply H; exact Hz).
  assert (0 <= j * dot n z z) by (apply Rmult_le_pos; [lra|apply dot_self_nonneg]).
  lra.
Qed.

Lemma psd_add_diag n A j :
  psd n A -> 0 < j -> posdef n (add_diag A j).
Proof.
  intros H Hj z Hz; rewrite quad_add_diag.
  assert (0 <= quad n A z) by apply H.
  assert (0 < j * dot n z z) by (apply Rmult_lt_0_compat; [lra|apply dot_self_pos; exact Hz]).
  lra.
Qed.

(** ** Fitting succeeds on a positive-definite covariance matrix *)

Lemma fit_first_attempt cfg m :
  posdef (n_train m) (cov m 0) ->
  exists p, fit cfg m = Ok p /\ post_jitter p = 0.
Proof.
  intros Hpd.
  destruct (posdef_cholesky _ _ (cov_symmetric m 0) Hpd) as [L HL].
  unfold fit, factor; rewrite HL; eexists; split; reflexivity.
Qed.

Lemma model_1pt_posdef : posdef (n_train model_1pt) (cov model_1pt 0).
Proof.
  apply psd_add_diag; [|simpl; lra].
  intros z; unfold quad, dot, mv; simpl.
  rewrite gram_entry by (simpl; lia); simpl.
  assert (0 < exp (- (dist [0] [0] * (dist [0] [0] * 1)) / (2 * (1 * (1 * 1)))))
    by apply exp_pos.
  assert (0 <= z O * z O) by apply Rle_0_sqr.
  nra.
Qed.

(** ** Claims *)

(** C1 (spec-modelled): for a fitted regression model, [predict x_s]
    returns the mean [k^T alpha] with [K alpha = y] and the variance
    [k(x_s, x_s) - k^T K^{-1} k] clamped at zero, where [K] is the
    regularised covariance matrix that was factored; the returned variance
    is never negative. *)
Theorem predict_mean_variance cfg m p xs :
  fit cfg m = Ok p ->
  let n := n_train m in
  let Ky := cov m (post_jitter p) in
  let k := kstar m xs in
  (forall i, (i < n)%nat -> mv n Ky (post_alpha p) i = yvec m i) /\
  (exists v, (forall i, (i < n)%nat -> mv n Ky v i = k i) /\
     predict m p xs =
       (dot n k (post_alpha p), Rmax 0 (K (kern m) xs xs - dot n k v))) /\
  0 <= snd (predict m p xs).
Proof.
  intros Hfit n Ky k.
  destruct (fit_ok cfg m p Hfit) as [Hch Halpha].
  assert (Hsym := cov_symmetric m (post_jitter p)).
  split; [|split].
  - intros i Hi; rewrite Halpha; apply chol_solve_correct;
      assumption.
  - exists (chol_solve n (post_L p) k); split; [|reflexivity].
    intros i Hi; apply chol_solve_correct; assumption.
  - apply Rmax_l.
Qed.

Lemma predict_mean_variance_witness :
  exists p, fit cfg_example model_1pt = Ok p /\
  (let n := n_train model_1pt in
   let Ky := cov model_1pt (post_jitter p) in
   let k := kstar model_1pt [1] in
   (forall i, (i < n)%nat -> mv n Ky (post_alpha p) i = yvec model_1pt i) /\
   (exists v, (forall i, (i < n)%nat -> mv n Ky v i = k i) /\
      predict model_1pt p [1] =
        (dot n k (post_alpha p), Rmax 0 (K (kern model_1pt) [1] [1] - dot n k v))) /\
   0 <= snd (predict model_1pt p [1])).
Proof.
  destruct (fit_first_attempt cfg_example model_1pt model_1pt_posdef) as [p [Hp _]].
  exists p; split; [exact Hp|].
  exact (predict_mean_variance cfg_example model_1pt p [1] Hp).
Defined.

(** C3: the Sum and Product combinators evaluate to the sum and product of
    their constituents, pointwise and entrywise on full matrices. *)
Theorem sum_prod_kernels k1 k2 :
  (forall x x', K (Sum k1 k2) x x' = K k1 x x' + K k2 x x') /\
  (forall x x', K (Prod k1 k2) x x' = K k1 x x' * K k2 x x') /\
  (forall A B i j, (i < length A)%nat -> (j < length B)%nat ->
     entry (Kmat (Sum k1 k2) A B) i j =
       entry (Kmat k1 A B) i j + entry (Kmat k2 A B) i j /\
     entry (Kmat (Prod k1 k2) A B) i j =
       entry (Kmat k1 A B) i j * entry (Kmat k2 A B) i j).
Proof.
  split; [|split]; [reflexivity|reflexivity|].
  intros A B i j Hi Hj; rewrite !Kmat_entry by assumption; split; reflexivity.
Qed.

Lemma sum_prod_kernels_witness :
  (1 < length [[0]; [1]])%nat /\ (0 < length [[0]])%nat /\
  entry (Kmat (Sum (Linear [1]) (RBF 2 1)) [[0]; [1]] [[0]]) 1%nat 0%nat =
    entry (Kmat (Linear [1]) [[0]; [1]] [[0]]) 1%nat 0%nat +
    entry (Kmat (RBF 2 1) [[0]; [1]] [[0]]) 1%nat 0%nat /\
  entry (Kmat (Prod (Linear [1]) (StdPeriodic 1 1)) [[0]; [1]] [[0]]) 1%nat 0%nat =
    entry (Kmat (Linear [1]) [[0]; [1]] [[0]]) 1%nat 0%nat *
    entry (Kmat (StdPeriodic 1 1) [[0]; [1]] [[0]]) 1%nat 0%nat.
Proof.
  split; [simpl; lia|]; split; [simpl; lia|]; split.
  - apply (proj2 (proj2 (sum_prod_kernels (Linear [1]) (RBF 2 1)))
             [[0]; [1]] [[0]] 1%nat 0%nat); simpl; lia.
  - apply (proj2 (proj2 (sum_prod_kernels (Linear [1]) (StdPeriodic 1 1)))
             [[0]; [1]] [[0]] 1%nat 0%nat); simpl; lia.
Defined.

Lemma sqdist_nonneg x : forall x', 0 <= sqdist x x'.
Proof.
  induction x as [|a x IH]; intros [|b x']; simpl; try lra.
  specialize (IH x'); assert (0 <= (a - b) * (a - b)) by apply Rle_0_sqr; lra.
Qed.

Lemma sqdist_refl x : sqdist x x = 0.
Proof. induction x as [|a x IH]; simpl; [reflexivity|]; rewrite IH; ring. Qed.

(** C10: the RBF kernel is [s * exp (- ||x - x'||^2 / (2 l^2))]; it equals
    its variance [s] on the diagonal and is strictly positive for a positive
    variance. *)
Theorem rbf_kernel_value s l x x' :
  0 < s ->
  K (RBF s l) x x' = s * exp (- sqdist x x' / (2 * l ^ 2)) /\
  K (RBF s l) x x = s /\
  0 < K (RBF s l) x x'.
Proof.
  intros Hs; cbn [K]; unfold dist.
  rewrite pow2_sqrt by apply sqdist_nonneg.
  rewrite sqdist_refl, sqrt_0.
  split; [reflexivity|split].
  - replace (- (0 ^ 2) / (2 * l ^ 2)) with 0 by (unfold Rdiv; ring).
    rewrite exp_0; ring.
  - apply Rmult_lt_0_compat; [exact Hs | apply exp_pos].
Qed.

Lemma rbf_kernel_value_witness :
  0 < 1 /\
  K (RBF 1 (2 / 10)) [0] [1] = 1 * exp (- sqdist [0] [1] / (2 * (2 / 10) ^ 2)) /\
  K (RBF 1 (2 / 10)) [0] [0] = 1 /\
  0 < K (RBF 1 (2 / 10)) [0] [1].
Proof. split; [lra|]. apply rbf_kernel_value; lra. Defined.

(** ** The jitter loop *)

Lemma jitter_loop_err tries : forall n mk jit e,
  jitter_loop tries n mk jit = Err e <->
  e = NumericalInstability /\
  forall t, (t < tries)%nat -> cholesky n (mk (jit * 2 ^ t)) = None.
Proof.
  induction tries as [|tr IH]; intros n mk jit e; simpl.
  - split; [intros H; injection H as <-; split; [reflexivity|intros; lia]|].
    intros [-> _]; reflexivity.
  - destruct (cholesky n (mk jit)) as [L|] eqn:E.
    + split; [discriminate|].
      intros [_ H]; specialize (H O ltac:(lia)).
      rewrite pow_O, Rmult_1_r, E in H; discriminate.
    + rewrite IH; split; intros [He H]; split; auto.
      * intros [|t] Ht; [rewrite pow_O, Rmult_1_r; exact E|].
        rewrite <- (H t) by lia; f_equal; f_equal; simpl; ring.
      * intros t Ht; rewrite <- (H (S t)) by lia; f_equal; f_equal; simpl; ring.
Qed.

Lemma jitter_loop_success tries : forall n mk jit L j,
  jitter_loop tries n mk jit = Ok (L, j) ->
  exists t, (t < tries)%nat /\ j = jit * 2 ^ t /\ cholesky n (mk j) = Some L /\
    forall s, (s < t)%nat -> cholesky n (mk (jit * 2 ^ s)) = None.
Proof.
  induction tries as [|tr IH]; intros n mk jit L j H; simpl in H; [discriminate|].
  destruct (cholesky n (mk jit)) as [L'|] eqn:E.
  - injection H as <- <-; exists O; split; [lia|].
    rewrite pow_O, Rmult_1_r; split; [reflexivity|split; [exact E|intros; lia]].
  - destruct (IH n mk (2 * jit) L j H) as [t [Ht [Hj [HL Hs]]]].
    exists (S t); split; [lia|]; split; [rewrite Hj; simpl; ring|].
    split; [exact HL|].
    intros [|s] Hs'; [rewrite pow_O, Rmult_1_r; exact E|].
    rewrite <- (Hs s) by lia; f_equal; f_equal; simpl; ring.
Qed.

(** C8 (spec-modelled): the builder first factors the assembled matrix;
    only if that fails does it retry with jitter [j0], [2 j0], [4 j0], ...,
    at most [jitter_tries] times.  It fails, and then only with
    [NumericalInstability], exactly when every one of these attempts fails;
    on success the jitter used is the first one that factors. *)
Theorem jitter_escalation cfg n mk :
  (forall e, factor cfg n mk = Err e <->
     e = NumericalInstability /\ cholesky n (mk 0) = None /\
     forall t, (t < jitter_tries cfg)%nat ->
       cholesky n (mk (jitter_init cfg * 2 ^ t)) = None) /\
  (forall L j, factor cfg n mk = Ok (L, j) ->
     (j = 0 /\ cholesky n (mk 0) = Some L) \/
     (cholesky n (mk 0) = None /\
      exists t, (t < jitter_tries cfg)%nat /\ j = jitter_init cfg * 2 ^ t /\
        cholesky n (mk j) = Some L /\
        forall s, (s < t)%nat -> cholesky n (mk (jitter_init cfg * 2 ^ s)) = None)).
Proof.
  unfold factor; destruct (cholesky n (mk 0)) as [L0|] eqn:E; split.
  - intros e; split; [discriminate|intros [_ [H _]]; discriminate].
  - intros L j H; injection H as <- <-; left; split; reflexivity.
  - intros e; rewrite jitter_loop_err; split.
    + intros [He H]; split; [exact He|split; [reflexivity|exact H]].
    + intros [He [_ H]]; split; assumption.
  - intros L j H; right; split; [reflexivity|].
    apply jitter_loop_success; exact H.
Qed.

Lemma jitter_escalation_witness :
  factor cfg_example 1 (fun _ _ _ => -1) = Err NumericalInstability.
Proof.
  apply (proj2 (proj1 (jitter_escalation cfg_example 1 (fun _ _ _ => -1))
                  NumericalInstability)).
  split; [reflexivity|split].
  - simpl; destruct (Rle_dec (-1) 0); [reflexivity|lra].
  - intros t Ht; simpl; destruct (Rle_dec (-1) 0); [reflexivity|lra].
Defined.

(** ** Quadratic forms of kernel matrices *)

Lemma quad_mat_ext n A B z :
  (forall i j, (i < n)%nat -> (j < n)%nat -> A i j = B i j) ->
  quad n A z = quad n B z.
Proof.
  intros H; unfold quad, dot, mv; apply sumn_ext; intros i Hi; f_equal.
  apply sumn_ext; intros j Hj; rewrite H by assumption; reflexivity.
Qed.

Lemma quad_plus n A B z :
  quad n (fun i j => A i j + B i j) z = quad n A z + quad n B z.
Proof.
  unfold quad, dot, mv.
  rewrite <- sumn_plus; apply sumn_ext; intros i Hi.
  rewrite (sumn_ext n _ (fun j => A i j * z j + B i j * z j)) by (intros; ring).
  rewrite sumn_plus; ring.
Qed.





(** The covariance matrix of a model whose Gram matrix is positive
    definite is positive definite for any non-negative noise and jitter. *)
Lemma cov_posdef m j :
  posdef (n_train m) (gram (kern m) (X m)) ->
  0 <= noise_variance m -> 0 <= j ->
  posdef (n_train m) (cov m j).
Proof. intros H Hn Hj; apply posdef_add_diag; [exact H|lra]. Qed.

(** The white-noise kernel with positive variance is positive definite. *)
Lemma White_spd s : 0 < s -> spd_kernel (White s).
Proof.
  intros Hs Xs Hnd z Hz.
  rewrite (quad_mat_ext _ _ (add_diag (fun _ _ => 0) s)).
  - rewrite quad_add_diag.
    assert (E : quad (length Xs) (fun _ _ => 0) z = 0).
    { unfold quad, dot, mv; apply sumn_zero; intros i Hi.
      rewrite (sumn_zero _ (fun j => 0 * z j)) by (intros; ring); ring. }
    rewrite E; assert (0 < dot (length Xs) z z) by (apply dot_self_pos; exact Hz).
    nra.
  - intros i j Hi Hj; rewrite gram_entry by assumption; simpl; unfold add_diag.
    destruct (point_eq_dec (nth i Xs []) (nth j Xs [])) as [E|E];
      destruct (Nat.eqb i j) eqn:Eij.
    + ring.
    + apply Nat.eqb_neq in Eij; exfalso; apply Eij.
      eapply (proj1 (NoDup_nth Xs [])); eassumption.
    + apply Nat.eqb_eq in Eij; subst; exfalso; apply E; reflexivity.
    + reflexivity.
Qed.

(** ** Positive semi-definite kernels *)

Lemma quad_rank_one n v (u z : vec) :
  quad n (fun i j => v * u i * u j) z = v * dot n z u ^ 2.
Proof.
  unfold quad, mv, dot.
  set (S := sumn n (fun j => z j * u j)).
  rewrite (sumn_ext n _ (fun i => (v * S) * (z i * u i))).
  - rewrite sumn_scal; fold S; ring.
  - intros i Hi.
    rewrite (sumn_ext n _ (fun j => (v * u i) * (z j * u j))) by (intros; ring).
    rewrite sumn_scal; fold S; ring.
Qed.

Lemma lin_sum_cons v vs x x' :
  lin_sum (v :: vs) x x' = v * head_or_0 x * head_or_0 x' + lin_sum vs (tl x) (tl x').
Proof.
  destruct x as [|a x]; destruct x' as [|b x']; simpl;
    destruct vs; simpl; try ring; destruct x; simpl; ring.
Qed.

Lemma lin_sum_psd vs : Forall (fun v => 0 <= v) vs ->
  forall n (P : nat -> point), psd n (fun r c => lin_sum vs (P r) (P c)).
Proof.
  induction 1 as [|v vs Hv Hvs IH]; intros n P z.
  - unfold quad, dot, mv; rewrite sumn_zero; [lra|].
    intros i Hi; rewrite sumn_zero; [ring|]; intros; simpl; ring.
  - rewrite (quad_mat_ext n _ (fun r c =>
        v * head_or_0 (P r) * head_or_0 (P c) + lin_sum vs (tl (P r)) (tl (P c))))
      by (intros; apply lin_sum_cons).
    rewrite (quad_plus n (fun r c => v * head_or_0 (P r) * head_or_0 (P c))
                        (fun r c => lin_sum vs (tl (P r)) (tl (P c)))).
    rewrite (quad_rank_one n v (fun r => head_or_0 (P r))).
    assert (H1 := IH n (fun r => tl (P r)) z); simpl in H1.
    assert (H2 : 0 <= v * dot n z (fun r => head_or_0 (P r)) ^ 2)
      by (apply Rmult_le_pos; [exact Hv | apply pow2_ge_0]).
    lra.
Qed.

Lemma sin_PI_abs t : sin (PI * Rabs t) ^ 2 = sin (PI * t) ^ 2.
Proof.
  unfold Rabs; destruct (Rcase_abs t); [|reflexivity].
  replace (PI * - t) with (- (PI * t)) by ring; rewrite sin_neg; ring.
Qed.

Lemma dist_1d a b : dist [a] [b] = Rabs (a - b).
Proof.
  unfold dist; simpl; rewrite Rplus_0_r; apply sqrt_Rsqr_abs.
Qed.










































(** ** Removing one index *)

Lemma skip_neq i r : skip i r <> i.
Proof. unfold skip; destruct (Nat.ltb_spec r i); lia. Qed.

Lemma skip_lt i r m : (i <= m)%nat -> (r < m)%nat -> (skip i r < S m)%nat.
Proof. unfold skip; destruct (Nat.ltb_spec r i); lia. Qed.

Lemma skip_inj i r r' : skip i r = skip i r' -> r = r'.
Proof.
  unfold skip; destruct (Nat.ltb_spec r i), (Nat.ltb_spec r' i); lia.
Qed.

Lemma unskip_skip i r : unskip i (skip i r) = r.
Proof.
  unfold unskip, skip; destruct (Nat.ltb_spec r i) as [H|H].
  - rewrite (proj2 (Nat.ltb_lt r i) H); reflexivity.
  - destruct (Nat.ltb_spec (S r) i); [lia|reflexivity].
Qed.

Lemma skip_unskip i t : t <> i -> skip i (unskip i t) = t.
Proof.
  intros H; unfold unskip, skip; destruct (Nat.ltb_spec t i) as [H1|H1].
  - rewrite (proj2 (Nat.ltb_lt t i) H1); reflexivity.
  - destruct (Nat.ltb_spec (pred t) i); lia.
Qed.

Lemma unskip_lt i t m : t <> i -> (t < S m)%nat -> (i < S m)%nat -> (unskip i t < m)%nat.
Proof. unfold unskip; destruct (Nat.ltb_spec t i); lia. Qed.

(** [sum_{t < m+1} f t = f i + sum_{r < m} f (skip i r)]. *)
Lemma sumn_skip m : forall i f, (i < S m)%nat ->
  sumn (S m) f = f i + sumn m (fun r => f (skip i r)).
Proof.
  induction m as [|m IH]; intros i f Hi.
  - assert (i = O) by lia; subst; simpl; ring.
  - destruct i as [|i'].
    + rewrite sumn_S; f_equal.
    + rewrite sumn_S, (IH i' (fun j => f (S j))) by lia.
      rewrite (sumn_S m (fun r => f (skip (S i') r))).
      replace (skip (S i') O) with O by reflexivity.
      rewrite (sumn_ext m (fun j => f (skip (S i') (S j))) (fun r => f (S (skip i' r))));
        [ring|].
      intros j _; unfold skip; cbn [Nat.ltb Nat.leb].
      destruct i'; [reflexivity|]; destruct (Nat.leb j i'); reflexivity.
Qed.

Lemma length_remove_at {A} (l : list A) : forall i,
  (i < length l)%nat -> length (remove_at i l) = pred (length l).
Proof.
  induction l as [|a l IH]; intros [|i] Hi; simpl in *; try lia.
  rewrite IH by lia; destruct l; simpl in *; lia.
Qed.

Lemma nth_remove_at {A} (l : list A) d : forall i r,
  nth r (remove_at i l) d = nth (skip i r) l d.
Proof.
  induction l as [|a l IH]; intros i r.
  - replace (remove_at i (@nil A)) with (@nil A) by (destruct i; reflexivity).
    destruct (skip i r), r; reflexivity.
  - destruct i as [|i'].
    + reflexivity.
    + destruct r as [|r']; [reflexivity|].
      simpl; rewrite IH; unfold skip.
      replace (Nat.ltb (S r') (S i')) with (Nat.ltb r' i') by reflexivity.
      destruct (Nat.ltb r' i'); reflexivity.
Qed.

(** ** Linear-algebra facts for leave-one-out *)

Lemma mv_mat_ext n A B x r :
  (forall r c, (r < n)%nat -> (c < n)%nat -> A r c = B r c) -> (r < n)%nat ->
  mv n A x r = mv n B x r.
Proof.
  intros H Hr; unfold mv; apply sumn_ext; intros c Hc; rewrite H by assumption; reflexivity.
Qed.

Lemma mv_vec_ext n A x y r :
  (forall c, (c < n)%nat -> x c = y c) -> mv n A x r = mv n A y r.
Proof.
  intros H; unfold mv; apply sumn_ext; intros c Hc; rewrite H by assumption; reflexivity.
Qed.

Lemma mv_lin n A a x y r :
  mv n A (fun t => a * x t - y t) r = a * mv n A x r - mv n A y r.
Proof.
  unfold mv; rewrite (sumn_ext n _ (fun c => a * (A r c * x c) + (-1) * (A r c * y c)))
    by (intros; ring).
  rewrite sumn_plus, !sumn_scal; ring.
Qed.

Lemma dot_ext n u v u' v' :
  (forall t, (t < n)%nat -> u t = u' t) -> (forall t, (t < n)%nat -> v t = v' t) ->
  dot n u v = dot n u' v'.
Proof.
  intros Hu Hv; unfold dot; apply sumn_ext; intros t Ht; rewrite Hu, Hv by exact Ht;
    reflexivity.
Qed.

Lemma dot_comm n u v : dot n u v = dot n v u.
Proof. unfold dot; apply sumn_ext; intros; ring. Qed.

(** [u^T (A w) = w^T (A u)] for a symmetric [A]. *)
Lemma dot_mv_swap n A u w :
  symmetric n A -> dot n u (mv n A w) = dot n w (mv n A u).
Proof.
  intros H; unfold dot, mv.
  rewrite (sumn_ext n _ (fun i => sumn n (fun j => u i * A i j * w j)))
    by (intros; rewrite <- sumn_scal; apply sumn_ext; intros; ring).
  rewrite sumn_swap.
  apply sumn_ext; intros j Hj; rewrite <- sumn_scal; apply sumn_ext; intros i Hi.
  rewrite (H i j) by assumption; ring.
Qed.

(** A positive-definite matrix has a trivial kernel. *)
Lemma posdef_inj n A w :
  posdef n A -> (forall t, (t < n)%nat -> mv n A w t = 0) ->
  forall t, (t < n)%nat -> w t = 0.
Proof.
  intros Hpd H t Ht; destruct (Req_EM_T (w t) 0) as [E|E]; [exact E|exfalso].
  assert (Hq : 0 < quad n A w) by (apply Hpd; exists t; split; assumption).
  unfold quad, dot in Hq.
  rewrite (sumn_zero n) in Hq by (intros j Hj; rewrite H by exact Hj; ring).
  lra.
Qed.

(** Principal submatrices of a positive-definite matrix are positive definite. *)
Lemma posdef_sub m A i :
  posdef (S m) A -> (i < S m)%nat ->
  posdef m (fun r c => A (skip i r) (skip i c)).
Proof.
  intros Hpd Hi z' [r0 [Hr0 Hz]].
  set (z := fun t => if Nat.eqb t i then 0 else z' (unskip i t)).
  assert (Ezs : forall r, z (skip i r) = z' r).
  { intros r; unfold z; rewrite unskip_skip.
    destruct (Nat.eqb_spec (skip i r) i) as [E|_]; [exfalso; eapply skip_neq; exact E|].
    reflexivity. }
  assert (Ezi : z i = 0) by (unfold z; rewrite Nat.eqb_refl; reflexivity).
  assert (Hq : 0 < quad (S m) A z).
  { apply Hpd; exists (skip i r0); split; [apply skip_lt; lia|rewrite Ezs; exact Hz]. }
  replace (quad m _ z') with (quad (S m) A z); [exact Hq|].
  unfold quad, dot; rewrite (sumn_skip m i) by exact Hi; rewrite Ezi, Rmult_0_l, Rplus_0_l.
  apply sumn_ext; intros r Hr; rewrite Ezs; f_equal.
  unfold mv; rewrite (sumn_skip m i) by exact Hi; rewrite Ezi, Rmult_0_r, Rplus_0_l.
  apply sumn_ext; intros c Hc; rewrite Ezs; reflexivity.
Qed.

Lemma unit_vec_skip i r : unit_vec i (skip i r) = 0.
Proof.
  unfold unit_vec; destruct (Nat.eqb_spec (skip i r) i) as [E|_]; [|reflexivity].
  exfalso; eapply skip_neq; exact E.
Qed.

Lemma unit_vec_same i : unit_vec i i = 1.
Proof. unfold unit_vec; rewrite Nat.eqb_refl; reflexivity. Qed.

Lemma dot_unit_vec m i x :
  (i < S m)%nat -> dot (S m) x (unit_vec i) = x i.
Proof.
  intros Hi; unfold dot; rewrite (sumn_skip m i) by exact Hi.
  rewrite unit_vec_same, (sumn_zero m) by (intros; rewrite unit_vec_skip; ring); ring.
Qed.

(** Leave-one-out through the inverse: with [A] symmetric positive definite,
    [A_-i] the matrix without row and column [i], [k] the removed column,
    [A_-i a = k], [A_-i b = y_-i], [A u = e_i] and [A alpha = y], the pivot
    [s = A_ii - k^T a] is positive, [u_i = 1 / s] and
    [y_i - alpha_i / u_i = k^T b]. *)
Lemma loo_algebra m A i y a b u alpha :
  symmetric (S m) A -> posdef (S m) A -> (i < S m)%nat ->
  (forall r, (r < m)%nat ->
     mv m (fun r c => A (skip i r) (skip i c)) a r = A (skip i r) i) ->
  (forall r, (r < m)%nat ->
     mv m (fun r c => A (skip i r) (skip i c)) b r = y (skip i r)) ->
  (forall t, (t < S m)%nat -> mv (S m) A u t = unit_vec i t) ->
  (forall t, (t < S m)%nat -> mv (S m) A alpha t = y t) ->
  let k := fun r => A (skip i r) i in
  let s := A i i - dot m k a in
  0 < s /\ u i = 1 / s /\ y i - alpha i / u i = dot m k b.
Proof.
  intros Hsym Hpd Hi Ha Hb Hu Halpha k s.
  set (Asub := fun r c => A (skip i r) (skip i c)) in *.
  assert (Hsk : forall r, (r < m)%nat -> (skip i r < S m)%nat)
    by (intros; apply skip_lt; lia).
  set (v := fun t => if Nat.eqb t i then 1 else - a (unskip i t)).
  assert (Evi : v i = 1) by (unfold v; rewrite Nat.eqb_refl; reflexivity).
  assert (Evs : forall r, v (skip i r) = - a r).
  { intros r; unfold v; rewrite unskip_skip.
    destruct (Nat.eqb_spec (skip i r) i) as [E|_]; [exfalso; eapply skip_neq; exact E|].
    reflexivity. }
  assert (Hv : forall t, (t < S m)%nat -> mv (S m) A v t = s * unit_vec i t).
  { intros t Ht; unfold mv; rewrite (sumn_skip m i) by exact Hi.
    rewrite Evi, (sumn_ext m _ (fun r => (-1) * (A t (skip i r) * a r)))
      by (intros; rewrite Evs; ring).
    rewrite sumn_scal.
    destruct (Nat.eq_dec t i) as [->|Hti].
    - rewrite unit_vec_same; unfold s, dot, k.
      rewrite (sumn_ext m (fun r => A i (skip i r) * a r) (fun r => A (skip i r) i * a r))
        by (intros r Hr; rewrite (Hsym i (skip i r)) by auto; reflexivity).
      ring.
    - rewrite <- (skip_unskip i t Hti).
      rewrite unit_vec_skip.
      assert (Hr0 : (unskip i t < m)%nat) by (apply unskip_lt; assumption).
      specialize (Ha _ Hr0); unfold mv, Asub in Ha; rewrite Ha; ring. }
  assert (Hs : 0 < s).
  { assert (Hq : 0 < quad (S m) A v) by (apply Hpd; exists i; split; [exact Hi|lra]).
    unfold quad in Hq; rewrite (dot_ext (S m) v (mv (S m) A v) v (fun t => s * unit_vec i t))
      in Hq by (auto; intros; apply Hv; assumption).
    unfold dot in Hq; rewrite (sumn_ext (S m) _ (fun t => s * (v t * unit_vec i t)))
      in Hq by (intros; ring).
    rewrite sumn_scal in Hq; fold (dot (S m) v (unit_vec i)) in Hq.
    rewrite dot_unit_vec, Evi in Hq by exact Hi; lra. }
  assert (Hsu : forall t, (t < S m)%nat -> s * u t = v t).
  { intros t Ht.
    assert (Hw := posdef_inj (S m) A (fun t => s * u t - v t) Hpd).
    assert (E : s * u t - v t = 0); [|lra].
    apply Hw; [|exact Ht]; intros t' Ht'.
    rewrite mv_lin, Hu, Hv by exact Ht'; ring. }
  assert (Hui : u i = 1 / s) by (specialize (Hsu i Hi); rewrite Evi in Hsu; field_simplify_eq; lra).
  split; [exact Hs|split; [exact Hui|]].
  (* alpha_i = u^T y *)
  assert (Ealpha : alpha i = dot (S m) u y).
  { rewrite <- (dot_unit_vec m i alpha Hi).
    rewrite (dot_ext (S m) alpha (unit_vec i) alpha (mv (S m) A u))
      by (auto; intros; symmetry; apply Hu; assumption).
    rewrite <- dot_mv_swap by exact Hsym.
    apply dot_ext; auto. }
  assert (Euy : dot (S m) u y = (y i - dot m a (fun r => y (skip i r))) / s).
  { unfold dot; rewrite (sumn_ext (S m) _ (fun t => / s * (v t * y t))).
    - rewrite sumn_scal, (sumn_skip m i) by exact Hi.
      rewrite Evi, (sumn_ext m _ (fun r => (-1) * (a r * y (skip i r))))
        by (intros; rewrite Evs; ring).
      rewrite sumn_scal; field; lra.
    - intros t Ht; rewrite <- (Hsu t Ht); field; lra. }
  assert (Eab : dot m a (fun r => y (skip i r)) = dot m k b).
  { rewrite (dot_ext m a (fun r => y (skip i r)) a (mv m Asub b))
      by (auto; intros; symmetry; apply Hb; assumption).
    rewrite dot_mv_swap.
    - rewrite dot_comm; apply dot_ext; auto; intros; apply Ha; assumption.
    - intros r c Hr Hc; unfold Asub; apply Hsym; auto. }
  rewrite Ealpha, Euy, Hui, Eab; field; lra.
Qed.

(** ** Leave-one-out against refitting *)

Lemma n_train_drop m i :
  (i < n_train m)%nat -> n_train (drop_point m i) = pred (n_train m).
Proof. intros Hi; unfold n_train; simpl; apply length_remove_at; exact Hi. Qed.

Lemma skip_lt_n i r n : (i < n)%nat -> (r < pred n)%nat -> (skip i r < n)%nat.
Proof. intros Hi Hr; destruct n as [|n]; [lia|]; apply skip_lt; simpl in Hr; lia. Qed.

Lemma cov_drop m i j r c :
  (i < n_train m)%nat -> (r < pred (n_train m))%nat -> (c < pred (n_train m))%nat ->
  cov (drop_point m i) j r c = cov m j (skip i r) (skip i c).
Proof.
  intros Hi Hr Hc.
  assert (Hlen : length (remove_at i (X m)) = pred (length (X m)))
    by (apply length_remove_at; exact Hi).
  unfold cov, add_diag, n_train in *; simpl.
  rewrite !gram_entry by (try rewrite Hlen; try apply skip_lt_n; assumption).
  rewrite !nth_remove_at.
  destruct (Nat.eqb_spec r c) as [->|Hrc]; [rewrite Nat.eqb_refl; reflexivity|].
  destruct (Nat.eqb_spec (skip i r) (skip i c)) as [E|_]; [|reflexivity].
  exfalso; apply Hrc; eapply skip_inj; exact E.
Qed.

Lemma cov_offdiag m j r c :
  r <> c -> (r < n_train m)%nat -> (c < n_train m)%nat ->
  cov m j r c = K (kern m) (nth r (X m) []) (nth c (X m) []).
Proof.
  intros Hrc Hr Hc; unfold cov, add_diag.
  destruct (Nat.eqb_spec r c) as [E|_]; [contradiction|].
  apply gram_entry; assumption.
Qed.

Lemma cov_diag m j r :
  (r < n_train m)%nat ->
  cov m j r r = K (kern m) (nth r (X m) []) (nth r (X m) []) + (noise_variance m + j).
Proof.
  intros Hr; unfold cov, add_diag; rewrite Nat.eqb_refl, gram_entry by assumption;
    reflexivity.
Qed.

(** Refitting without point [i] relates to the leave-one-out formulas: the
    means agree, the formula's variance is the refit's unclamped latent
    variance plus the noise variance, and the refit's clamped variance is
    [max 0 (sigma_i - noise)]. *)
Lemma loo_refit_relation cfg m p i :
  fit cfg m = Ok p -> post_jitter p = 0 -> (i < n_train m)%nat ->
  let m' := drop_point m i in
  let xi := nth i (X m) [] in
  exists p', fit cfg m' = Ok p' /\
    loo_refit cfg m i = Some (predict m' p' xi) /\
    fst (loo m p i) = fst (predict m' p' xi) /\ 0 < snd (loo m p i) /\
    snd (loo m p i) =
      K (kern m) xi xi + noise_variance m -
      dot (n_train m') (kstar m' xi) (chol_solve (n_train m') (post_L p') (kstar m' xi)) /\
    snd (predict m' p' xi) = Rmax 0 (snd (loo m p i) - noise_variance m).
Proof.
  intros Hfit Hj Hi m' xi.
  destruct (fit_ok cfg m p Hfit) as [Hch Halpha]; rewrite Hj in Hch.
  assert (Hsym := cov_symmetric m 0).
  assert (Hpd := cholesky_posdef _ _ _ Hsym Hch).
  assert (Hn' : n_train m' = pred (n_train m)) by (apply n_train_drop; exact Hi).
  remember (n_train m) as n eqn:En; destruct n as [|mm]; [lia|].
  simpl in Hn'.
  assert (Hsk : forall r, (r < mm)%nat -> (skip i r < n_train m)%nat)
    by (intros r Hr; rewrite <- En; apply skip_lt; lia).
  set (A := cov m 0) in *.
  assert (Hcov' : forall r c, (r < mm)%nat -> (c < mm)%nat ->
            cov m' 0 r c = A (skip i r) (skip i c)).
  { intros r c Hr Hc; apply cov_drop; rewrite <- En; simpl; assumption. }
  assert (Hpd' : posdef (n_train m') (cov m' 0)).
  { rewrite Hn'; intros z Hz.
    rewrite (quad_mat_ext _ _ (fun r c => A (skip i r) (skip i c))) by exact Hcov'.
    apply posdef_sub; assumption. }
  destruct (fit_first_attempt cfg m' Hpd') as [p' [Hfit' Hj']].
  destruct (fit_ok cfg m' p' Hfit') as [Hch' Halpha']; rewrite Hj' in Hch'.
  rewrite Hn' in Hch', Halpha'.
  assert (Hsym' := cov_symmetric m' 0); rewrite Hn' in Hsym'.
  exists p'; split; [exact Hfit'|].
  split; [unfold loo_refit; fold m'; rewrite Hfit'; reflexivity|].
  set (k' := kstar m' xi).
  assert (Hk' : forall r, (r < mm)%nat -> k' r = A (skip i r) i).
  { intros r Hr; unfold k', kstar, m', drop_point; simpl.
    rewrite nth_remove_at; unfold A.
    rewrite cov_offdiag by (first [apply skip_neq | apply Hsk; exact Hr | rewrite <- En; exact Hi]).
    apply K_sym. }
  set (a := chol_solve mm (post_L p') k').
  set (u := chol_solve (S mm) (post_L p) (unit_vec i)).
  destruct (loo_algebra mm A i (yvec m) a (post_alpha p') u (post_alpha p)
              Hsym Hpd Hi) as [Hs [Hu Hloo]].
  - intros r Hr; rewrite <- Hk' by exact Hr.
    rewrite <- (mv_mat_ext mm (cov m' 0)) by assumption.
    apply chol_solve_correct; assumption.
  - intros r Hr; rewrite <- (mv_mat_ext mm (cov m' 0)) by assumption.
    rewrite Halpha', chol_solve_correct by assumption.
    unfold yvec, m', drop_point; simpl; apply nth_remove_at.
  - intros t Ht; apply chol_solve_correct; [exact Hsym|exact Hch|exact Ht].
  - intros t Ht; rewrite Halpha; apply chol_solve_correct; assumption.
  - set (kk := fun r => A (skip i r) i) in *.
    assert (Ekk : forall r, (r < mm)%nat -> kk r = k' r) by (intros; rewrite Hk'; auto).
    assert (Eaii : A i i = K (kern m) xi xi + noise_variance m)
      by (unfold A; rewrite cov_diag by (rewrite <- En; exact Hi);
          rewrite Rplus_0_r; reflexivity).
    assert (Hloo_snd : snd (loo m p i) = A i i - dot mm kk a).
    { unfold loo; rewrite <- En; simpl; fold u; rewrite Hu; field; lra. }
    assert (Edka : dot mm kk a = dot mm k' a) by (apply dot_ext; auto).
    split; [|split; [rewrite Hloo_snd; exact Hs|split]].
    + unfold loo, predict; rewrite <- En, Hn'; simpl; fold u; fold k'.
      rewrite Hloo; apply dot_ext; auto.
    + rewrite Hloo_snd, Eaii, Hn', Edka; fold a; ring.
    + rewrite Hloo_snd, Eaii, Edka.
      unfold predict; rewrite Hn'; simpl; fold k'; fold a; f_equal; ring.
Qed.

Lemma model_white_fit :
  exists p, fit cfg_example model_white = Ok p /\ post_jitter p = 0.
Proof.
  apply fit_first_attempt, cov_posdef; [|simpl; lra|lra].
  apply (White_spd 1 ltac:(lra)).
  constructor; [|constructor; [intros []|constructor]].
  intros [E|[]]; injection E as E; lra.
Qed.

(** On [model_white] the leave-one-out variance of point 0 is [11/10]
    while refitting on the other point and predicting gives [1]. *)
Lemma model_white_loo_gap p :
  fit cfg_example model_white = Ok p -> post_jitter p = 0 ->
  exists mu, loo_refit cfg_example model_white 0 = Some (mu, 1) /\
    fst (loo model_white p 0) = mu /\ snd (loo model_white p 0) = 11 / 10.
Proof.
  intros Hfit Hj.
  assert (H0 : (0 < n_train model_white)%nat) by (unfold n_train; simpl; lia).
  destruct (loo_refit_relation cfg_example model_white p 0 Hfit Hj H0)
    as [p' [_ [Hr [Hmu [_ [Hs Hv]]]]]].
  assert (Hk0 : K (White 1) [0] [1] = 0).
  { cbn [K]; destruct (point_eq_dec [0] [1]) as [E|]; [injection E; lra|reflexivity]. }
  assert (Hk1 : K (White 1) [0] [0] = 1).
  { cbn [K]; destruct (point_eq_dec [0] [0]) as [|E]; [reflexivity|congruence]. }
  cbn [n_train drop_point remove_at X kern noise_variance model_white length
       dot sumn kstar nth] in Hs, Hv, Hr, Hmu.
  assert (Hks : kstar (drop_point model_white 0) [0] 0%nat = 0) by exact Hk0.
  rewrite Hks, Hk1 in Hs.
  assert (Hs' : snd (loo model_white p 0) = 11 / 10) by (rewrite Hs; field).
  rewrite Hs' in Hv.
  exists (fst (predict (drop_point model_white 0) p' [0])); split; [|split; [exact Hmu|exact Hs']].
  rewrite Hr; f_equal.
  destruct (predict (drop_point model_white 0) p' [0]) as [mu v]; simpl in Hv |- *.
  rewrite Hv, Rmax_right by lra; f_equal; field.
Qed.

(** C7 (counterexample): the leave-one-out formulas do not reproduce the
    refit prediction, not even within a tolerance of [1/100].  On
    [model_white] (two points, White kernel, noise [1/10]) the formula's
    variance for point 0 is [11/10], the refit predicts variance [1]. *)
Lemma loo_refit_counterexample :
  ~ (forall cfg m p i,
       fit cfg m = Ok p -> (i < n_train m)%nat -> (n_train m <= 20)%nat ->
       exists mu v, loo_refit cfg m i = Some (mu, v) /\
         Rabs (fst (loo m p i) - mu) < 1 / 100 /\
         Rabs (snd (loo m p i) - v) < 1 / 100).
Proof.
  intros H.
  destruct model_white_fit as [p [Hfit Hj]].
  destruct (model_white_loo_gap p Hfit Hj) as [mu0 [Hr [_ Hs]]].
  destruct (H cfg_example model_white p 0%nat Hfit) as [mu [v [Hr' [_ Hv]]]];
    [unfold n_train; simpl; lia | unfold n_train; simpl; lia |].
  rewrite Hr in Hr'; injection Hr' as _ Ev; subst v.
  rewrite Hs, Rabs_right in Hv; lra.
Qed.

(** C7 (amended).  For a model whose covariance factorised without added
    jitter, refitting without point [i] and predicting at [x_i] succeeds;
    its mean is exactly the leave-one-out mean
    [y_i - [K^-1 y]_i / [K^-1]_ii], and the leave-one-out variance
    [1/[K^-1]_ii] is positive and is the refit's predictive variance of the
    noisy target: the refit's (latent, clamped) variance is
    [max 0 (1/[K^-1]_ii - noise)]. *)
Theorem loo_matches_refit cfg m p i :
  fit cfg m = Ok p -> post_jitter p = 0 -> (i < n_train m)%nat ->
  exists mu v, loo_refit cfg m i = Some (mu, v) /\
    fst (loo m p i) = mu /\ 0 < snd (loo m p i) /\
    v = Rmax 0 (snd (loo m p i) - noise_variance m).
Proof.
  intros Hfit Hj Hi.
  destruct (loo_refit_relation cfg m p i Hfit Hj Hi)
    as [p' [_ [Hr [Hmu [Hpos [_ Hv]]]]]].
  exists (fst (predict (drop_point m i) p' (nth i (X m) []))),
         (snd (predict (drop_point m i) p' (nth i (X m) []))).
  rewrite Hr, <- surjective_pairing; auto.
Qed.

Lemma loo_matches_refit_witness :
  exists p, fit cfg_example model_white = Ok p /\ post_jitter p = 0 /\
    (0 < n_train model_white)%nat /\
    exists mu v, loo_refit cfg_example model_white 0 = Some (mu, v) /\
      fst (loo model_white p 0) = mu /\ 0 < snd (loo model_white p 0) /\
      v = Rmax 0 (snd (loo model_white p 0) - noise_variance model_white).
Proof.
  destruct model_white_fit as [p [Hfit Hj]].
  assert (H0 : (0 < n_train model_white)%nat) by (unfold n_train; simpl; lia).
  exists p; split; [exact Hfit|]; split; [exact Hj|]; split; [exact H0|].
  exact (loo_matches_refit cfg_example model_white p 0 Hfit Hj H0).
Defined.

(** ** The optimizer's parameter vector *)

Lemma set_free_length ps : forall u, length (set_free ps u) = length ps.
Proof.
  induction ps as [|p ps IH]; intros u; simpl; [reflexivity|].
  destruct (is_fixed p); [simpl; rewrite IH; reflexivity|].
  destruct u; simpl; rewrite IH; reflexivity.
Qed.

Lemma set_free_fixed ps : forall u j p,
  nth_error ps j = Some p -> is_fixed p = true -> nth_error (set_free ps u) j = Some p.
Proof.
  induction ps as [|q ps IH]; intros u j p Hj Hf; [destruct j; discriminate|].
  simpl; destruct j as [|j]; simpl in Hj.
  - injection Hj as ->; rewrite Hf; reflexivity.
  - destruct (is_fixed q); [simpl; apply IH; assumption|].
    destruct u; simpl; apply IH; assumption.
Qed.

(** Mapping the optimisation vector of the current parameters back gives
    the current parameters, when every free positivity-constrained value is
    positive ([exp (ln v) = v]); raw offsets come back as they are. *)
Lemma set_free_free_vec ps :
  Forall (fun p => is_fixed p = false -> constraint p = Positive -> 0 < value p) ps ->
  set_free ps (free_vec ps) = ps.
Proof.
  induction 1 as [|[v f c] ps Hv Hps IH]; simpl; [reflexivity|].
  destruct f; simpl; rewrite IH; [reflexivity|].
  simpl in Hv; unfold to_internal, from_internal; simpl.
  destruct c; [rewrite exp_ln by (apply Hv; reflexivity)|]; reflexivity.
Qed.

(** The iterate returned by the loop has the returned objective. *)
Lemma opt_loop_result objective step tolerance_met ps iters :
  forall u best fbest b fb c,
  opt_loop objective step tolerance_met ps iters u best fbest = Ok (b, fb, c) ->
  obj objective ps best = Ok fbest ->
  obj objective ps b = Ok fb.
Proof.
  induction iters as [|it IH]; intros u best fbest b fb c Hl Hb; simpl in Hl.
  - injection Hl as <- <- _; exact Hb.
  - destruct (obj objective ps (step u)) as [f'|e] eqn:Ef; [|discriminate].
    destruct (tolerance_met u (step u)).
    + injection Hl as <- <- _; exact Ef.
    + destruct (Rlt_dec fbest f'); simpl in Hl; eapply IH; eassumption.
Qed.

(** When no step lowers the objective, neither the final iterate nor the
    best iterate is below a bound that the current iterate and the best
    one meet. *)
Lemma opt_loop_ascent objective step tolerance_met ps f0 iters :
  (forall u f f', obj objective ps u = Ok f ->
     obj objective ps (step u) = Ok f' -> f <= f') ->
  forall u fu best fbest b fb c,
  opt_loop objective step tolerance_met ps iters u best fbest = Ok (b, fb, c) ->
  obj objective ps u = Ok fu -> f0 <= fu -> f0 <= fbest -> f0 <= fb.
Proof.
  intros Hasc; induction iters as [|it IH];
    intros u fu best fbest b fb c Hl Hu H0u H0b; simpl in Hl.
  - injection Hl as _ <- _; exact H0b.
  - destruct (obj objective ps (step u)) as [f'|e] eqn:Ef; [|discriminate].
    assert (Hf' := Hasc _ _ _ Hu Ef).
    destruct (tolerance_met u (step u)).
    + injection Hl as _ <- _; lra.
    + destruct (Rlt_dec fbest f'); simpl in Hl;
        (eapply IH; [exact Hl | exact Ef | lra | lra]).
Qed.

Lemma optimize_cases objective step tolerance_met max_iter ps :
  (exists e, optimize objective step tolerance_met max_iter ps = (ps, Err e)) \/
  (exists f0 b st, obj objective ps (free_vec ps) = Ok f0 /\
     optimize objective step tolerance_met max_iter ps = (set_free ps b, Ok st) /\
     obj objective ps b = Ok (achieved st) /\
     ((forall u f f', obj objective ps u = Ok f ->
         obj objective ps (step u) = Ok f' -> f <= f') ->
      f0 <= achieved st)).
Proof.
  unfold optimize.
  destruct (obj objective ps (free_vec ps)) as [f0|e] eqn:E0; [|left; exists e; reflexivity].
  destruct (opt_loop objective step tolerance_met ps max_iter (free_vec ps) (free_vec ps) f0)
    as [[[b fb] c]|e] eqn:El; [|left; exists e; reflexivity].
  right; exists f0, b, {| achieved := fb; converged := c |}.
  split; [reflexivity|]; split; [reflexivity|]; split.
  - exact (opt_loop_result _ _ _ _ _ _ _ _ _ _ _ El E0).
  - intros Hasc; simpl.
    apply (opt_loop_ascent _ _ _ _ f0 _ Hasc _ _ _ _ _ _ _ El E0); lra.
Qed.

(** C5.  After [optimize], every hyperparameter marked fixed has the same
    entry as before, whatever the objective, the steps and the values.  The
    log marginal likelihood of the returned parameters is at least the one
    of the parameters before the call when the free positivity-constrained
    values are positive (spec 4.1) and the local optimizer's steps do not
    lower the objective (an ascent method). *)
Theorem optimize_fixed_monotone objective step tolerance_met max_iter ps :
  let ps' := fst (optimize objective step tolerance_met max_iter ps) in
  length ps' = length ps /\
  (forall j p, nth_error ps j = Some p -> is_fixed p = true -> nth_error ps' j = Some p) /\
  (Forall (fun p => is_fixed p = false -> constraint p = Positive -> 0 < value p) ps ->
   (forall u f f', obj objective ps u = Ok f ->
      obj objective ps (step u) = Ok f' -> f <= f') ->
   forall f0, objective (map value ps) = Ok f0 ->
     exists f1, objective (map value ps') = Ok f1 /\ f0 <= f1).
Proof.
  intros ps'; subst ps'.
  destruct (optimize_cases objective step tolerance_met max_iter ps)
    as [[e ->] | [f0 [b [st [E0 [-> [Eb Hle]]]]]]]; simpl.
  - split; [reflexivity|]; split; [auto|].
    intros _ _ f0 Hf0; exists f0; split; [exact Hf0 | lra].
  - split; [apply set_free_length|]; split; [intros; apply set_free_fixed; assumption|].
    intros Hpos Hasc f Hf; exists (achieved st); split; [exact Eb|].
    unfold obj in E0; rewrite set_free_free_vec in E0 by exact Hpos.
    rewrite Hf in E0; injection E0 as ->; exact (Hle Hasc).
Qed.

(** The notebook's parameters (fixed noise variance, free kernel
    variance), an objective increasing in the kernel variance and a step
    that raises its logarithm by 1, three iterations. *)
Lemma optimize_fixed_monotone_witness :
  Forall (fun p => is_fixed p = false -> constraint p = Positive -> 0 < value p)
    params_example /\
  (forall u f f', obj (fun vs => Ok (nth 1 vs 0)) params_example u = Ok f ->
     obj (fun vs => Ok (nth 1 vs 0)) params_example (map (fun t => t + 1) u) = Ok f' ->
     f <= f') /\
  exists f1,
    (fun vs => Ok (nth 1 vs 0))
      (map value (fst (optimize (fun vs => Ok (nth 1 vs 0)) (map (fun t => t + 1))
                         (fun _ _ => false) 3 params_example))) = Ok f1 /\
    1 <= f1.
Proof.
  assert (Hpos : Forall (fun p => is_fixed p = false -> constraint p = Positive -> 0 < value p)
                   params_example)
    by (repeat constructor; simpl; intros; first [discriminate | lra]).
  assert (Hasc : forall u f f', obj (fun vs => Ok (nth 1 vs 0)) params_example u = Ok f ->
     obj (fun vs => Ok (nth 1 vs 0)) params_example (map (fun t => t + 1) u) = Ok f' ->
     f <= f').
  { intros [|t u] f f'; unfold obj; simpl; intros H1 H2;
      injection H1 as <-; injection H2 as <-; [lra|].
    apply Rlt_le, exp_increasing; lra. }
  split; [exact Hpos|]; split; [exact Hasc|].
  apply (proj2 (proj2 (optimize_fixed_monotone (fun vs => Ok (nth 1 vs 0))
           (map (fun t => t + 1)) (fun _ _ => false) 3 params_example)) Hpos Hasc).
  reflexivity.
Defined.

(** C6.  [optimize] either fails and returns the parameters unchanged, or
    succeeds and returns the parameters with all free entries taken from
    one iterate [u] (the fixed ones kept), whose objective is the reported
    one. *)
Theorem optimize_atomic objective step tolerance_met max_iter ps :
  match optimize objective step tolerance_met max_iter ps with
  | (ps', Err _) => ps' = ps
  | (ps', Ok st) =>
      exists u, ps' = set_free ps u /\ obj objective ps u = Ok (achieved st)
  end.
Proof.
  destruct (optimize_cases objective step tolerance_met max_iter ps)
    as [[e ->] | [f0 [b [st [_ [-> [Eb _]]]]]]]; [reflexivity|].
  exists b; split; [reflexivity | exact Eb].
Qed.

(** ** Datasets *)

Lemma make_dataset_ok Xs ys ds :
  make_dataset Xs ys = Ok ds ->
  ds = {| inputs := Xs; targets := ys |} /\ length Xs = length ys /\
  Forall (fun x => length x = length (nth 0 Xs [])) Xs.
Proof.
  unfold make_dataset.
  destruct (Nat.eqb_spec (length Xs) (length ys)) as [E|]; [|discriminate].
  destruct (dim_ok (length (nth 0 Xs [])) Xs) eqn:Ed; [|discriminate].
  simpl; intros H; injection H as <-; split; [reflexivity|]; split; [exact E|].
  apply Forall_forall; intros x Hx.
  unfold dim_ok in Ed; rewrite forallb_forall in Ed.
  apply Nat.eqb_eq, Ed, Hx.
Qed.

Lemma label_01 b : label b = 0 \/ label b = 1.
Proof. destruct b; simpl; auto. Qed.

Lemma cylinder_center : cylinder [1 / 2; 1 / 2] = true.
Proof.
  unfold cylinder; cbn [nth].
  destruct (Rlt_dec 0 (1 / 7 - (1 / 2 - 1 / 2) ^ 2 - (1 / 2 - 1 / 2) ^ 2)) as [|H];
    [reflexivity | exfalso; apply H; simpl; lra].
Qed.

Lemma cylinder_corner : cylinder [0; 0] = false.
Proof.
  unfold cylinder; cbn [nth].
  destruct (Rlt_dec 0 (1 / 7 - (0 - 1 / 2) ^ 2 - (0 - 1 / 2) ^ 2)) as [H|];
    [exfalso; simpl in H; lra | reflexivity].
Qed.

Lemma classification_data_example :
  classification_data Xs_example =
    Ok {| inputs := Xs_example; targets := [1; 0] |}.
Proof.
  unfold classification_data, Xs_example; simpl map.
  rewrite cylinder_center, cylinder_corner; reflexivity.
Qed.

(** C9 (counterexample): the notebook's classification dataset is
    accepted with a target [0]: the labels [cylinder(X)] are booleans,
    [1] inside the cylinder and [0] outside, not [+1]/[-1]. *)
Lemma dataset_labels_counterexample :
  ~ (forall Xs ds, classification_data Xs = Ok ds ->
       length (inputs ds) = length (targets ds) /\
       (exists d, Forall (fun x => length x = d) (inputs ds)) /\
       Forall (fun y => y = 1 \/ y = -1) (targets ds)).
Proof.
  intros H.
  destruct (H _ _ classification_data_example) as [_ [_ Hy]]; simpl in Hy.
  inversion Hy as [|? ? _ Hy']; subst.
  inversion Hy' as [|? ? [E|E] _]; lra.
Qed.

(** C9 (amended).  A dataset accepted by the core has as many inputs as
    targets and all inputs of one dimension [d]; targets are not checked,
    and the notebook's classification targets [cylinder(X)] are [0] or [1]. *)
Theorem dataset_invariants :
  (forall Xs ys ds, make_dataset Xs ys = Ok ds ->
     length (inputs ds) = length (targets ds) /\
     exists d, Forall (fun x => length x = d) (inputs ds)) /\
  (forall Xs ds, classification_data Xs = Ok ds ->
     Forall (fun y => y = 0 \/ y = 1) (targets ds)).
Proof.
  split.
  - intros Xs ys ds H; destruct (make_dataset_ok Xs ys ds H) as [-> [E Hd]].
    split; [exact E | exists (length (nth 0 Xs [])); exact Hd].
  - intros Xs ds H; destruct (make_dataset_ok _ _ ds H) as [-> _]; simpl.
    apply Forall_forall; intros y Hy; apply in_map_iff in Hy as [x [<- _]].
    apply label_01.
Qed.

Lemma dataset_invariants_witness :
  classification_data Xs_example = Ok {| inputs := Xs_example; targets := [1; 0] |} /\
  (length Xs_example = length [1; 0] /\
   exists d, Forall (fun x => length x = d) Xs_example) /\
  Forall (fun y => y = 0 \/ y = 1) [1; 0].
Proof.
  split; [exact classification_data_example|].
  split.
  - exact (proj1 dataset_invariants _ _ _ classification_data_example).
  - exact (proj2 dataset_invariants _ _ classification_data_example).
Defined.

(** ** Values of the notebook's covariance functions *)

Lemma dist_nonneg x x' : 0 <= dist x x'.
Proof. apply sqrt_pos. Qed.

Lemma dist_refl x : dist x x = 0.
Proof. unfold dist; rewrite sqdist_refl; apply sqrt_0. Qed.

Lemma exp_le_mono a b : a <= b -> exp a <= exp b.
Proof.
  intros [H| ->]; [left; apply exp_increasing; exact H | right; reflexivity].
Qed.

Lemma exp_nonpos_le_1 t : t <= 0 -> exp t <= 1.
Proof. intros H; rewrite <- exp_0; apply exp_le_mono; exact H. Qed.

(** [1 + u + u^2/3 <= exp u] for [u >= 0], through [exp u = exp(u/3)^3]. *)
Lemma exp_ge_cubic u : 0 <= u -> 1 + u + u ^ 2 / 3 <= exp u.
Proof.
  intros Hu.
  assert (E : exp u = exp (u / 3) * exp (u / 3) * exp (u / 3))
    by (rewrite <- !exp_plus; f_equal; field).
  assert (H1 := exp_ineq1_le (u / 3)).
  assert (H0 : 0 <= 1 + u / 3) by lra.
  assert (H2 : (1 + u / 3) * (1 + u / 3) <= exp (u / 3) * exp (u / 3))
    by (apply Rmult_le_compat; lra).
  assert (H3 : (1 + u / 3) * (1 + u / 3) * (1 + u / 3) <=
               exp (u / 3) * exp (u / 3) * exp (u / 3))
    by (apply Rmult_le_compat; nra).
  rewrite E; nra.
Qed.

(** [p(u) * exp(-u) <= 1] when [0 <= p(u) <= exp u]. *)
Lemma poly_exp_le_1 q u : q <= exp u -> q * exp (- u) <= 1.
Proof.
  intros H; rewrite exp_Ropp.
  assert (Hp := exp_pos u).
  apply (Rmult_le_reg_r (exp u)); [exact Hp|].
  rewrite Rmult_assoc, Rinv_l by lra; lra.
Qed.

Lemma sin_PI_shift t : sin (PI * (t - 1)) ^ 2 = sin (PI * t) ^ 2.
Proof.
  replace (PI * (t - 1)) with (PI * t - PI) by ring.
  rewrite sin_minus, sin_PI, cos_PI; ring.
Qed.

Lemma ratio_nonneg r l : 0 <= r -> 0 < l -> 0 <= r / l.
Proof.
  intros Hr Hl; unfold Rdiv; apply Rmult_le_pos; [exact Hr|].
  left; apply Rinv_0_lt_compat; exact Hl.
Qed.

(** Cell "k.lengthscale = t": with variance [s > 0] the RBF kernel lies in
    [(0, s]] (the plots' y-range [[0, 1]] for [s = 1]), and a longer
    lengthscale never lowers its value at a given pair of points. *)
Theorem rbf_lengthscale_monotone s l1 l2 x x' :
  0 < s -> 0 < l1 -> l1 <= l2 ->
  0 < K (RBF s l1) x x' /\ K (RBF s l1) x x' <= K (RBF s l2) x x' /\
  K (RBF s l2) x x' <= s.
Proof.
  intros Hs H1 H12; cbn [K].
  set (r := dist x x').
  assert (Hr2 : 0 <= r ^ 2) by apply pow2_ge_0.
  assert (Hinv : / (2 * l2 ^ 2) <= / (2 * l1 ^ 2))
    by (apply Rinv_le_contravar; nra).
  assert (Hpos2 : 0 <= / (2 * l2 ^ 2)) by (left; apply Rinv_0_lt_compat; nra).
  assert (Hm : r ^ 2 * / (2 * l2 ^ 2) <= r ^ 2 * / (2 * l1 ^ 2))
    by (apply Rmult_le_compat_l; assumption).
  assert (Hn : 0 <= r ^ 2 * / (2 * l2 ^ 2)) by (apply Rmult_le_pos; assumption).
  unfold Rdiv; rewrite !Ropp_mult_distr_l_reverse.
  split; [apply Rmult_lt_0_compat; [exact Hs | apply exp_pos]|split].
  - apply Rmult_le_compat_l; [lra|]; apply exp_le_mono; lra.
  - rewrite <- (Rmult_1_r s) at 2; apply Rmult_le_compat_l; [lra|].
    apply exp_nonpos_le_1; lra.
Qed.

Lemma rbf_lengthscale_monotone_witness :
  0 < 1 /\ 0 < 1 / 5 /\ 1 / 5 <= 1 / 2 /\
  0 < K (RBF 1 (1 / 5)) [0] [1] /\
  K (RBF 1 (1 / 5)) [0] [1] <= K (RBF 1 (1 / 2)) [0] [1] /\
  K (RBF 1 (1 / 2)) [0] [1] <= 1.
Proof.
  split; [lra|]; split; [lra|]; split; [lra|].
  apply (rbf_lengthscale_monotone 1 (1 / 5) (1 / 2) [0] [1]); lra.
Defined.

(** Cell "covariance_functions": with variance [s > 0] and lengthscale
    [l > 0], the Exponential, Matern32 and Matern52 kernels take values in
    [(0, s]] and equal [s] at [x = x']. *)
Theorem matern_family_bounds s l x x' :
  0 < s -> 0 < l ->
  (0 < K (Exponential s l) x x' <= s /\ K (Exponential s l) x x = s) /\
  (0 < K (Matern32 s l) x x' <= s /\ K (Matern32 s l) x x = s) /\
  (0 < K (Matern52 s l) x x' <= s /\ K (Matern52 s l) x x = s).
Proof.
  intros Hs Hl; cbn [K]; rewrite !dist_refl.
  assert (Hr := dist_nonneg x x'); set (r := dist x x') in *.
  assert (H3 : 0 <= sqrt 3 * r / l)
    by (apply ratio_nonneg; [apply Rmult_le_pos; [apply sqrt_pos|] |]; assumption).
  assert (H5 : 0 <= sqrt 5 * r / l)
    by (apply ratio_nonneg; [apply Rmult_le_pos; [apply sqrt_pos|] |]; assumption).
  assert (Z : forall c, c * 0 / l = 0) by (intros; unfold Rdiv; ring).
  assert (Z' : 0 / l = 0) by (unfold Rdiv; ring).
  split; [|split].
  - split; [split|].
    + apply Rmult_lt_0_compat; [exact Hs | apply exp_pos].
    + rewrite <- (Rmult_1_r s) at 2; apply Rmult_le_compat_l; [lra|].
      apply exp_nonpos_le_1; assert (0 <= r / l) by (apply ratio_nonneg; assumption); lra.
    + rewrite Z', Ropp_0, exp_0; ring.
  - set (u := sqrt 3 * r / l) in *.
    split; [split|].
    + apply Rmult_lt_0_compat; [apply Rmult_lt_0_compat; lra | apply exp_pos].
    + rewrite Rmult_assoc; rewrite <- (Rmult_1_r s) at 2.
      apply Rmult_le_compat_l; [lra|]; apply poly_exp_le_1.
      apply exp_ineq1_le.
    + rewrite Z, Ropp_0, exp_0; ring.
  - set (u := sqrt 5 * r / l) in *.
    assert (Eu : 5 / 3 * (r ^ 2 / l ^ 2) = u ^ 2 / 3).
    { assert (Hs5 : sqrt 5 * sqrt 5 = 5) by (apply sqrt_sqrt; lra).
      unfold u; replace (5 / 3 * (r ^ 2 / l ^ 2))
        with (sqrt 5 * sqrt 5 / 3 * (r ^ 2 / l ^ 2)) by (rewrite Hs5; reflexivity).
      field; lra. }
    rewrite Eu.
    assert (Hq : 0 < 1 + u + u ^ 2 / 3) by nra.
    split; [split|].
    + apply Rmult_lt_0_compat; [apply Rmult_lt_0_compat; lra | apply exp_pos].
    + rewrite Rmult_assoc; rewrite <- (Rmult_1_r s) at 2.
      apply Rmult_le_compat_l; [lra|]; apply poly_exp_le_1.
      apply exp_ge_cubic; exact H5.
    + rewrite Z; replace (0 ^ 2 / l ^ 2) with 0 by (unfold Rdiv; ring).
      rewrite Ropp_0, exp_0; ring.
Qed.

Lemma matern_family_bounds_witness :
  0 < 2 /\ 0 < 1 / 2 /\
  (0 < K (Exponential 2 (1 / 2)) [0] [1] <= 2 /\ K (Exponential 2 (1 / 2)) [0] [0] = 2) /\
  (0 < K (Matern32 2 (1 / 2)) [0] [1] <= 2 /\ K (Matern32 2 (1 / 2)) [0] [0] = 2) /\
  (0 < K (Matern52 2 (1 / 2)) [0] [1] <= 2 /\ K (Matern52 2 (1 / 2)) [0] [0] = 2).
Proof.
  split; [lra|]; split; [lra|].
  apply (matern_family_bounds 2 (1 / 2) [0] [1]); lra.
Defined.

(** Cell "covariance_functions": the StdPeriodic kernel with [s > 0],
    [l > 0] takes values in [(0, s]], equals [s] at [x = x'], and on
    one-dimensional inputs it is periodic with period 1. *)
Theorem stdperiodic_bounds_period s l x x' a b :
  0 < s -> 0 < l ->
  (0 < K (StdPeriodic s l) x x' <= s /\ K (StdPeriodic s l) x x = s) /\
  K (StdPeriodic s l) [a] [b + 1] = K (StdPeriodic s l) [a] [b].
Proof.
  intros Hs Hl; cbn [K]; rewrite dist_refl, !dist_1d.
  split; [split; [split|]|].
  - apply Rmult_lt_0_compat; [exact Hs | apply exp_pos].
  - rewrite <- (Rmult_1_r s) at 2; apply Rmult_le_compat_l; [lra|].
    apply exp_nonpos_le_1.
    assert (0 <= sin (PI * dist x x') ^ 2 / l ^ 2)
      by (apply ratio_nonneg; [apply pow2_ge_0 | nra]).
    lra.
  - rewrite Rmult_0_r, sin_0; unfold Rdiv; rewrite pow_i by lia.
    rewrite Rmult_0_l, Rmult_0_r, exp_0; ring.
  - rewrite !sin_PI_abs.
    replace (a - (b + 1)) with ((a - b) - 1) by ring.
    rewrite sin_PI_shift; reflexivity.
Qed.

Lemma stdperiodic_bounds_period_witness :
  0 < 1 /\ 0 < 1 /\
  (0 < K (StdPeriodic 1 1) [0] [1 / 2] <= 1 /\ K (StdPeriodic 1 1) [0] [0] = 1) /\
  K (StdPeriodic 1 1) [0] [1 / 2 + 1] = K (StdPeriodic 1 1) [0] [1 / 2].
Proof.
  split; [lra|]; split; [lra|].
  apply (stdperiodic_bounds_period 1 1 [0] [1 / 2] 0 (1 / 2)); lra.
Defined.

(** Cell "covariance_functions": the RatQuad kernel (no variance factor in
    the notebook's formula) with [alpha > 0], [l > 0] takes values in
    [(0, 1]] and equals 1 at [x = x']. *)
Theorem ratquad_bounds a l x x' :
  0 < a -> 0 < l ->
  0 < K (RatQuad a l) x x' <= 1 /\ K (RatQuad a l) x x = 1.
Proof.
  intros Ha Hl; cbn [K]; rewrite dist_refl; unfold Rpower.
  assert (Hb : 0 <= dist x x' ^ 2 / (2 * a * l ^ 2))
    by (apply ratio_nonneg; [apply pow2_ge_0 | apply Rmult_lt_0_compat; nra]).
  assert (Hln : 0 <= ln (1 + dist x x' ^ 2 / (2 * a * l ^ 2))).
  { rewrite <- ln_1; destruct Hb as [Hb| <-].
    - left; apply ln_increasing; lra.
    - rewrite Rplus_0_r; right; reflexivity. }
  split; [split|].
  - apply exp_pos.
  - apply exp_nonpos_le_1; nra.
  - unfold Rdiv; rewrite pow_i by lia; rewrite Rmult_0_l, Rplus_0_r, ln_1, Rmult_0_r.
    apply exp_0.
Qed.

Lemma ratquad_bounds_witness :
  0 < 1 /\ 0 < 1 /\
  0 < K (RatQuad 1 1) [0] [1] <= 1 /\ K (RatQuad 1 1) [0] [0] = 1.
Proof.
  split; [lra|]; split; [lra|].
  apply (ratquad_bounds 1 1 [0] [1]); lra.
Defined.

(** ** The notebook's helper functions *)

(** Every point that [cylinder] labels positive lies strictly inside the
    unit square, the range of [np.random.rand] and of the plotted grid. *)
Theorem cylinder_inside_square a b :
  cylinder [a; b] = true -> 0 < a < 1 /\ 0 < b < 1.
Proof.
  unfold cylinder; cbn [nth].
  destruct (Rlt_dec 0 (1 / 7 - (a - 1 / 2) ^ 2 - (b - 1 / 2) ^ 2)) as [H|];
    [intros _ | discriminate].
  assert (Ha : (a - 1 / 2) ^ 2 < 1 / 4) by (assert (0 <= (b - 1 / 2) ^ 2) by apply pow2_ge_0; lra).
  assert (Hb : (b - 1 / 2) ^ 2 < 1 / 4) by (assert (0 <= (a - 1 / 2) ^ 2) by apply pow2_ge_0; lra).
  split; split; nra.
Qed.

Lemma cylinder_inside_square_witness :
  cylinder [1 / 2; 1 / 2] = true /\ 0 < 1 / 2 < 1 /\ 0 < 1 / 2 < 1.
Proof.
  split; [exact cylinder_center|].
  exact (cylinder_inside_square (1 / 2) (1 / 2) cylinder_center).
Defined.

Lemma cylinder_cond_eq a b a' b' :
  (a - 1 / 2) ^ 2 + (b - 1 / 2) ^ 2 = (a' - 1 / 2) ^ 2 + (b' - 1 / 2) ^ 2 ->
  cylinder [a; b] = cylinder [a'; b'].
Proof.
  intros H; unfold cylinder; cbn [nth].
  replace (1 / 7 - (a - 1 / 2) ^ 2 - (b - 1 / 2) ^ 2)
    with (1 / 7 - (a' - 1 / 2) ^ 2 - (b' - 1 / 2) ^ 2) by lra.
  reflexivity.
Qed.

(** [cylinder] only reads the first two coordinates and its labels are
    symmetric about the centre [(1/2, 1/2)]: swapping the coordinates or
    reflecting one of them ([t -> 1 - t]) keeps the label. *)
Theorem cylinder_symmetry a b rest :
  cylinder (a :: b :: rest) = cylinder [a; b] /\
  cylinder [b; a] = cylinder [a; b] /\
  cylinder [1 - a; b] = cylinder [a; b] /\
  cylinder [a; 1 - b] = cylinder [a; b].
Proof.
  split; [reflexivity|].
  split; [|split]; apply cylinder_cond_eq; field.
Qed.

(** ** Kernel matrices *)

(** [kernel.K(A, B)] is an [|A| x |B|] matrix for every kernel, combined
    ones included, and [K(A, B)] is the transpose of [K(B, A)]. *)
Theorem Kmat_shape_transpose k A B :
  length (Kmat k A B) = length A /\
  (forall i, (i < length A)%nat -> length (nth i (Kmat k A B) []) = length B) /\
  (forall i j, (i < length A)%nat -> (j < length B)%nat ->
     entry (Kmat k A B) i j = entry (Kmat k B A) j i).
Proof.
  destruct (Kmat_shape k A B) as [H1 H2].
  split; [exact H1|]; split; [exact H2|].
  intros i j Hi Hj; rewrite !Kmat_entry by assumption; apply K_sym.
Qed.

Lemma rbf_1d_origin a : K (RBF 1 1) [a] [0] = exp (- a ^ 2 / 2).
Proof.
  cbn [K]; rewrite dist_1d, Rminus_0_r, pow2_abs.
  rewrite Rmult_1_l; f_equal; field.
Qed.

Lemma exp_neg_sq_le_1 a : exp (- a ^ 2 / 2) <= 1 /\ (exp (- a ^ 2 / 2) = 1 -> a = 0).
Proof.
  assert (H := pow2_ge_0 a).
  split; [apply exp_nonpos_le_1; lra|].
  intros E; rewrite <- exp_0 in E; apply exp_inv in E; nra.
Qed.

(** The surface of the cell "kernel = k1 + k2" with
    [k1 = RBF(1, active_dims=[0])], [k2 = RBF(1, active_dims=[1])]:
    [z = kernel.K(x, [[0, 0]])] has one column, its entry for a grid point
    [(a, b)] is [exp(-a^2/2) + exp(-b^2/2)], a value in [(0, 2]] that
    reaches 2 only at the origin. *)
Theorem additive_kernel_surface (xs : list point) i a b :
  nth_error xs i = Some [a; b] ->
  let z := Kmat additive_kernel xs [[0; 0]] in
  length z = length xs /\ length (nth i z []) = 1%nat /\
  entry z i 0 = exp (- a ^ 2 / 2) + exp (- b ^ 2 / 2) /\
  0 < entry z i 0 <= 2 /\ (entry z i 0 = 2 <-> a = 0 /\ b = 0).
Proof.
  intros Hi z.
  assert (Hlt : (i < length xs)%nat) by (apply nth_error_Some; congruence).
  assert (Hx : nth i xs [] = [a; b]) by (apply nth_error_nth; exact Hi).
  destruct (Kmat_shape additive_kernel xs [[0; 0]]) as [H1 H2].
  assert (E : entry z i 0 = exp (- a ^ 2 / 2) + exp (- b ^ 2 / 2)).
  { unfold z; rewrite Kmat_entry by first [exact Hlt | simpl; lia].
    rewrite Hx; cbn [nth].
    change (K additive_kernel [a; b] [0; 0])
      with (K (RBF 1 1) [a] [0] + K (RBF 1 1) [b] [0]).
    rewrite !rbf_1d_origin; reflexivity. }
  destruct (exp_neg_sq_le_1 a) as [Ha Ha0]; destruct (exp_neg_sq_le_1 b) as [Hb Hb0].
  assert (Pa := exp_pos (- a ^ 2 / 2)); assert (Pb := exp_pos (- b ^ 2 / 2)).
  split; [exact H1|]; split; [apply H2; exact Hlt|]; split; [exact E|].
  rewrite E; split; [lra|]; split.
  - intros S; split; [apply Ha0 | apply Hb0]; lra.
  - intros [-> ->]; rewrite pow_i by lia.
    replace (- 0 / 2) with 0 by (unfold Rdiv; ring); rewrite exp_0; ring.
Qed.

Lemma additive_kernel_surface_witness :
  nth_error [[0; 0]; [1; 2]] 1 = Some [1; 2] /\
  let z := Kmat additive_kernel [[0; 0]; [1; 2]] [[0; 0]] in
  length z = length [[0; 0]; [1; 2]] /\ length (nth 1 z []) = 1%nat /\
  entry z 1 0 = exp (- 1 ^ 2 / 2) + exp (- 2 ^ 2 / 2) /\
  0 < entry z 1 0 <= 2 /\ (entry z 1 0 = 2 <-> 1 = 0 /\ 2 = 0).
Proof.
  split; [reflexivity|].
  exact (additive_kernel_surface [[0; 0]; [1; 2]] 1 1 2 eq_refl).
Defined.

(** ** The posterior and the targets *)

Lemma posdef_quad_nonneg n A z : posdef n A -> 0 <= quad n A z.
Proof.
  intros H.
  destruct (classic (exists i, (i < n)%nat /\ z i <> 0)) as [Hz|Hz].
  - left; apply H; exact Hz.
  - right; symmetry; unfold quad, dot; apply sumn_zero; intros j Hj.
    assert (E : z j = 0) by (apply NNPP; intros Hn; apply Hz; exists j; auto).
    rewrite E; ring.
Qed.

Lemma predict_quad cfg m p xs :
  fit cfg m = Ok p ->
  dot (n_train m) (kstar m xs) (chol_solve (n_train m) (post_L p) (kstar m xs)) =
    quad (n_train m) (cov m (post_jitter p))
         (chol_solve (n_train m) (post_L p) (kstar m xs)) /\
  0 <= quad (n_train m) (cov m (post_jitter p))
         (chol_solve (n_train m) (post_L p) (kstar m xs)).
Proof.
  intros Hfit; destruct (fit_ok cfg m p Hfit) as [Hch _].
  assert (Hsym := cov_symmetric m (post_jitter p)).
  split; [|apply posdef_quad_nonneg; eapply cholesky_posdef; eassumption].
  unfold quad; rewrite dot_comm; apply dot_ext; [reflexivity|].
  intros t Ht; symmetry; apply chol_solve_correct; assumption.
Qed.

Lemma predict_mean_dual cfg m p xs :
  fit cfg m = Ok p ->
  fst (predict m p xs) =
    dot (n_train m) (chol_solve (n_train m) (post_L p) (kstar m xs)) (yvec m).
Proof.
  intros Hfit; destruct (fit_ok cfg m p Hfit) as [Hch Halpha].
  assert (Hsym := cov_symmetric m (post_jitter p)).
  set (n := n_train m) in *; set (A := cov m (post_jitter p)) in *.
  set (v := chol_solve n (post_L p) (kstar m xs)).
  unfold predict; fold n; simpl.
  rewrite (dot_ext n (kstar m xs) (post_alpha p) (mv n A v) (post_alpha p))
    by (intros; first [reflexivity | symmetry; apply chol_solve_correct; assumption]).
  rewrite dot_comm, dot_mv_swap by exact Hsym.
  apply dot_ext; [reflexivity|].
  intros t Ht; rewrite Halpha; apply chol_solve_correct; assumption.
Qed.

(** The posterior variance never exceeds the prior variance: for every
    fitted model and query point, [0 <= sigma^2(x) <= max 0 (k(x, x))]. *)
Theorem predict_variance_le_prior cfg m p xs :
  fit cfg m = Ok p -> 0 <= snd (predict m p xs) <= Rmax 0 (K (kern m) xs xs).
Proof.
  intros Hfit; destruct (predict_quad cfg m p xs Hfit) as [Eq Hq].
  unfold predict; simpl; rewrite Eq.
  set (q := quad _ _ _) in *.
  unfold Rmax; destruct (Rle_dec 0 (K (kern m) xs xs - q));
    destruct (Rle_dec 0 (K (kern m) xs xs)); lra.
Qed.

Lemma predict_variance_le_prior_witness :
  exists p, fit cfg_example model_1pt = Ok p /\
    0 <= snd (predict model_1pt p [1]) <= Rmax 0 (K (kern model_1pt) [1] [1]).
Proof.
  destruct (fit_first_attempt cfg_example model_1pt model_1pt_posdef) as [p [Hp _]].
  exists p; split; [exact Hp|].
  exact (predict_variance_le_prior cfg_example model_1pt p [1] Hp).
Defined.

(** Without observation noise (and with a covariance that factorised
    without jitter) the posterior interpolates the data: at a training
    input [x_i] the predicted mean is [y_i] and the variance is 0. *)
Theorem predict_interpolates cfg m p i :
  fit cfg m = Ok p -> post_jitter p = 0 -> noise_variance m = 0 ->
  (i < n_train m)%nat ->
  predict m p (nth i (X m) []) = (yvec m i, 0).
Proof.
  intros Hfit Hj Hn Hi.
  destruct (fit_ok cfg m p Hfit) as [Hch Halpha]; rewrite Hj in Hch.
  assert (Hsym := cov_symmetric m 0).
  set (n := n_train m) in *; set (A := cov m 0) in *.
  set (xi := nth i (X m) []).
  assert (Hk : forall r, (r < n)%nat -> kstar m xi r = A i r).
  { intros r Hr; unfold kstar, A, cov, add_diag.
    rewrite gram_entry by assumption; rewrite Hn.
    destruct (Nat.eqb_spec i r) as [<-|_]; [unfold xi; ring | reflexivity]. }
  assert (Hrow : forall v, dot n (kstar m xi) v = mv n A v i).
  { intros v; unfold mv; apply (dot_ext n _ _ (fun r => A i r) v); auto. }
  set (v := chol_solve n (post_L p) (kstar m xi)).
  assert (Hq : dot n (kstar m xi) v = K (kern m) xi xi).
  { rewrite Hrow; unfold v; rewrite chol_solve_correct by assumption; reflexivity. }
  unfold predict; fold n; fold v; rewrite Hq, Hrow, Halpha.
  rewrite chol_solve_correct by assumption.
  replace (K (kern m) xi xi - K (kern m) xi xi) with 0 by ring.
  unfold Rmax; destruct (Rle_dec 0 0); reflexivity.
Qed.

Lemma model_white_exact_fit :
  exists p, fit cfg_example model_white_exact = Ok p /\ post_jitter p = 0.
Proof.
  apply fit_first_attempt, cov_posdef; [|simpl; lra|lra].
  apply (White_spd 1 ltac:(lra)).
  constructor; [|constructor; [intros []|constructor]].
  intros [E|[]]; injection E as E; lra.
Qed.

Lemma predict_interpolates_witness :
  exists p, fit cfg_example model_white_exact = Ok p /\ post_jitter p = 0 /\
    noise_variance model_white_exact = 0 /\ (1 < n_train model_white_exact)%nat /\
    predict model_white_exact p (nth 1 (X model_white_exact) []) =
      (yvec model_white_exact 1%nat, 0).
Proof.
  destruct model_white_exact_fit as [p [Hp Hj]].
  assert (H1 : (1 < n_train model_white_exact)%nat) by (unfold n_train; simpl; lia).
  exists p; split; [exact Hp|]; split; [exact Hj|]; split; [reflexivity|]; split; [exact H1|].
  exact (predict_interpolates cfg_example model_white_exact p 1 Hp Hj eq_refl H1).
Defined.

Lemma fit_same_inputs cfg m1 m2 p1 :
  X m2 = X m1 -> kern m2 = kern m1 -> noise_variance m2 = noise_variance m1 ->
  fit cfg m1 = Ok p1 ->
  fit cfg m2 = Ok {| post_L := post_L p1; post_jitter := post_jitter p1;
                     post_alpha := chol_solve (n_train m1) (post_L p1) (yvec m2) |}.
Proof.
  intros HX HK HN; unfold fit, n_train, cov; rewrite HX, HK, HN.
  destruct (factor _ _ _) as [[L j]|e]; intros H; [|discriminate].
  injection H as <-; reflexivity.
Qed.

(** The targets only enter the posterior mean, linearly: for models with the
    same inputs, kernel and noise, fitting one succeeds iff fitting the
    others does, they share the predictive variance, and targets
    [a y1 + b y2] give the mean [a m1(x) + b m2(x)]. *)
Theorem predict_linear_in_targets cfg m1 m2 m3 p1 a b :
  X m2 = X m1 -> kern m2 = kern m1 -> noise_variance m2 = noise_variance m1 ->
  X m3 = X m1 -> kern m3 = kern m1 -> noise_variance m3 = noise_variance m1 ->
  (forall i, (i < n_train m1)%nat -> yvec m3 i = a * yvec m1 i + b * yvec m2 i) ->
  fit cfg m1 = Ok p1 ->
  exists p2 p3, fit cfg m2 = Ok p2 /\ fit cfg m3 = Ok p3 /\
  forall xs,
    fst (predict m3 p3 xs) = a * fst (predict m1 p1 xs) + b * fst (predict m2 p2 xs) /\
    snd (predict m2 p2 xs) = snd (predict m1 p1 xs) /\
    snd (predict m3 p3 xs) = snd (predict m1 p1 xs).
Proof.
  intros HX2 HK2 HN2 HX3 HK3 HN3 Hy Hfit.
  assert (F2 := fit_same_inputs cfg m1 m2 p1 HX2 HK2 HN2 Hfit).
  assert (F3 := fit_same_inputs cfg m1 m3 p1 HX3 HK3 HN3 Hfit).
  eexists; eexists; split; [exact F2|]; split; [exact F3|]; intros xs.
  assert (En2 : n_train m2 = n_train m1) by (unfold n_train; rewrite HX2; reflexivity).
  assert (En3 : n_train m3 = n_train m1) by (unfold n_train; rewrite HX3; reflexivity).
  assert (Ek2 : kstar m2 xs = kstar m1 xs) by (unfold kstar; rewrite HX2, HK2; reflexivity).
  assert (Ek3 : kstar m3 xs = kstar m1 xs) by (unfold kstar; rewrite HX3, HK3; reflexivity).
  split; [|split].
  - rewrite (predict_mean_dual cfg m3 _ xs F3), (predict_mean_dual cfg m2 _ xs F2),
      (predict_mean_dual cfg m1 p1 xs Hfit).
    simpl post_L; rewrite En2, En3, Ek2, Ek3.
    set (v := chol_solve (n_train m1) (post_L p1) (kstar m1 xs)).
    unfold dot; rewrite (sumn_ext _ _ (fun i => a * (v i * yvec m1 i) + b * (v i * yvec m2 i)))
      by (intros i Hi; rewrite Hy by exact Hi; ring).
    rewrite sumn_plus, !sumn_scal; reflexivity.
  - unfold predict; simpl; rewrite En2, Ek2, HK2; reflexivity.
  - unfold predict; simpl; rewrite En3, Ek3, HK3; reflexivity.
Qed.

Lemma predict_linear_in_targets_witness :
  exists p1, fit cfg_example model_1pt = Ok p1 /\
  X model_1pt_y2 = X model_1pt /\ kern model_1pt_y2 = kern model_1pt /\
  noise_variance model_1pt_y2 = noise_variance model_1pt /\
  X model_1pt_y3 = X model_1pt /\ kern model_1pt_y3 = kern model_1pt /\
  noise_variance model_1pt_y3 = noise_variance model_1pt /\
  (forall i, (i < n_train model_1pt)%nat ->
     yvec model_1pt_y3 i = 1 * yvec model_1pt i + 1 * yvec model_1pt_y2 i) /\
  exists p2 p3, fit cfg_example model_1pt_y2 = Ok p2 /\
    fit cfg_example model_1pt_y3 = Ok p3 /\
    forall xs,
      fst (predict model_1pt_y3 p3 xs) =
        1 * fst (predict model_1pt p1 xs) + 1 * fst (predict model_1pt_y2 p2 xs) /\
      snd (predict model_1pt_y2 p2 xs) = snd (predict model_1pt p1 xs) /\
      snd (predict model_1pt_y3 p3 xs) = snd (predict model_1pt p1 xs).
Proof.
  destruct (fit_first_attempt cfg_example model_1pt model_1pt_posdef) as [p1 [Hp _]].
  assert (Hy : forall i, (i < n_train model_1pt)%nat ->
     yvec model_1pt_y3 i = 1 * yvec model_1pt i + 1 * yvec model_1pt_y2 i).
  { intros i Hi; unfold n_train in Hi; simpl in Hi.
    destruct i as [|i]; [unfold yvec; simpl; lra | lia]. }
  exists p1; split; [exact Hp|].
  do 6 (split; [reflexivity|]); split; [exact Hy|].
  exact (predict_linear_in_targets cfg_example model_1pt model_1pt_y2 model_1pt_y3 p1 1 1
           eq_refl eq_refl eq_refl eq_refl eq_refl eq_refl Hy Hp).
Defined.

(** ** The Linear kernel *)

(** The Linear kernel [sum_i s_i^2 x_i x'_i] with non-negative variances
    gives a positive semi-definite matrix on every list of inputs. *)
Theorem linear_gram_psd vs (Xs : list point) :
  Forall (fun v => 0 <= v) vs -> psd (length Xs) (gram (Linear vs) Xs).
Proof.
  intros Hvs z.
  rewrite (quad_mat_ext _ _ (fun r c => lin_sum vs (nth r Xs []) (nth c Xs [])))
    by (intros; rewrite gram_entry by assumption; reflexivity).
  apply (lin_sum_psd vs Hvs (length Xs) (fun r => nth r Xs [])).
Qed.

Lemma linear_gram_psd_witness :
  Forall (fun v => 0 <= v) [2] /\ psd (length [[1]; [2]; [2]]) (gram (Linear [2]) [[1]; [2]; [2]]).
Proof.
  assert (H : Forall (fun v => 0 <= v) [2]) by (repeat constructor; lra).
  split; [exact H | exact (linear_gram_psd [2] [[1]; [2]; [2]] H)].
Defined.
